(** * chord-id: chord detection, MIDI note registry and audio voice manager

    A shallow embedding of the chord-recognition pipeline of the
    application: [utils/chordDetection.ts], [audio/instruments.ts],
    [hooks/useMidi.ts] and [hooks/useAudio.ts].

    - JavaScript numbers that carry MIDI note numbers are integers ([Z]);
      velocities and volumes are rationals ([Q]), exact where the source
      computes in floating point.
    - The [tonal] library (note naming and chord matching) is external to
      the repository: it is an interface, [Tonal], over which the detection
      code is parametric.
    - The hook [useAudio] is a state machine: synchronous calls are single
      steps, every [await] splits a call into a step that suspends a task
      and a later step that settles it. Calls made on the audio backends
      (Tone.js synthesizers, smplr samplers) are recorded in a call log. *)

From Stdlib Require Import ZArith QArith Qround Qminmax String Ascii List Lia Bool.
From stdpp Require Import gmap strings list sorting.
Import ListNotations.

Close Scope Q_scope.
Open Scope Z_scope.
Open Scope string_scope.

(** ** JavaScript string and collection helpers *)

Module Js.

(** [a || b] on strings: the empty string is falsy. *)
Definition truthy (s : string) : bool := negb (String.eqb s "").

Definition or_else (a b : string) : string := if truthy a then a else b.

(** [a || b] where [a] may be [null]. *)
Definition or_else_null (a : option string) (b : string) : string :=
  match a with
  | Some s => or_else s b
  | None => b
  end.

(** [String.prototype.toLowerCase], on ASCII letters. *)
Definition lower_ascii (c : ascii) : ascii :=
  let n := nat_of_ascii c in
  if ((65 <=? n) && (n <=? 90))%nat then ascii_of_nat (n + 32) else c.

Fixpoint toLowerCase (s : string) : string :=
  match s with
  | EmptyString => EmptyString
  | String c r => String (lower_ascii c) (toLowerCase r)
  end.

(** [t.includes(sub)]: [sub] occurs in [t] as a contiguous substring. *)
Fixpoint includes (t sub : string) : bool :=
  String.prefix sub t ||
  match t with
  | EmptyString => false
  | String _ r => includes r sub
  end.

(** [Set.prototype.add] on a set kept in insertion order: adding a member
    changes nothing, a new element goes last. *)
Definition set_add (x : Z) (s : list Z) : list Z :=
  if bool_decide (x ∈ s) then s else s ++ [x].

(** [Set.prototype.delete]. *)
Definition set_delete (x : Z) (s : list Z) : list Z :=
  List.filter (fun y => negb (Z.eqb y x)) s.

(** [new Set(array)], read back with [Array.from]: first occurrences, in
    order. *)
Definition set_of_list (l : list Z) : list Z :=
  fold_left (fun acc x => set_add x acc) l [].

(** [array.sort((a, b) => a - b)]. *)
Definition sort_ascending (l : list Z) : list Z := merge_sort Z.le l.

End Js.

(** ** utils/chordDetection.ts *)

(** What the code reads of the object returned by tonal's [Chord.get]. *)
Record ChordInfo := {
  ci_empty : bool;
  ci_tonic : option string;
  ci_type : string;
  ci_quality : string
}.

(** The part of tonal used by the detection code. [Note.fromMidi] and
    [Note.pitchClass] answer the empty string when they have no name to
    give. *)
Class Tonal := {
  Note_fromMidi : Z -> string;
  Note_pitchClass : string -> string;
  Chord_detect : list string -> list string;
  Chord_get : string -> ChordInfo
}.

Module ChordDetection.
Import Js.

Inductive Quality := major | minor | diminished | augmented | dominant | other.

Record DetectedChord := {
  name : string;
  symbol : string;
  root : string;
  type : string;
  notes : list string;
  quality : Quality
}.

Definition getChordQuality (type : string) : Quality :=
  let t := toLowerCase type in
  if includes t "maj" || String.eqb t "M" || String.eqb t "" then major
  else if includes t "min" || String.eqb t "m" then minor
  else if includes t "dim" then diminished
  else if includes t "aug" then augmented
  else if includes t "dom" || includes t "7" then dominant
  else other.

Definition midiToPitchClass (midi : Z) : Z := Z.rem midi 12.

Definition getPitchClasses (midiNotes : list Z) : list Z :=
  sort_ascending (set_of_list (map midiToPitchClass midiNotes)).

Section WithTonal.
Context {T : Tonal}.

Definition midiToNote (midi : Z) : string := or_else (Note_fromMidi midi) "".

(** The names handed to the matcher at the first attempt. *)
Definition noteNamesOf (notes : list Z) : list string :=
  List.filter truthy (map midiToNote notes).

(** The names handed to the matcher at the second attempt. *)
Definition pitchClassNotesOf (notes : list Z) : list string :=
  map (fun pc => Note_pitchClass (or_else (midiToNote pc) "C")) (getPitchClasses notes).

(** [detectChord]; the argument is [Array.from(activeNotes)]. *)
Definition detectChord (activeNotes : list Z) : option DetectedChord :=
  let notes := activeNotes in
  if (length notes <? 2)%nat then None else
  let noteNames := noteNamesOf notes in
  if (length noteNames <? 2)%nat then None else
  let sortedNotes := sort_ascending notes in
  let bassNote := midiToNote (hd 0 sortedNotes) in
  match Chord_detect noteNames with
  | chordName :: _ =>
      let chordInfo := Chord_get chordName in
      if ci_empty chordInfo then None else
      let quality := getChordQuality (or_else (ci_quality chordInfo) (ci_type chordInfo)) in
      Some {| name := chordName;
              symbol := chordName;
              root := or_else_null (ci_tonic chordInfo) bassNote;
              type := ci_type chordInfo;
              notes := map (fun n => or_else (Note_pitchClass n) n) noteNames;
              quality := quality |}
  | [] =>
      let pitchClassNotes := pitchClassNotesOf notes in
      match Chord_detect pitchClassNotes with
      | chordName :: _ =>
          let chordInfo := Chord_get chordName in
          if negb (ci_empty chordInfo) then
            let quality := getChordQuality (or_else (ci_quality chordInfo) (ci_type chordInfo)) in
            Some {| name := chordName;
                    symbol := chordName;
                    root := or_else_null (ci_tonic chordInfo) "";
                    type := ci_type chordInfo;
                    notes := map (fun n => or_else (Note_pitchClass n) n) noteNames;
                    quality := quality |}
          else None
      | [] => None
      end
  end.

(** [getNoteName(midiNote, includeOctave)] *)
Definition getNoteName (midiNote : Z) (includeOctave : bool) : string :=
  let note := midiToNote midiNote in
  if negb (truthy note) then ""
  else if includeOctave then note
  else or_else (Note_pitchClass note) "".

(** Two properties of a matcher on which the detection relies: over the
    MIDI range the pitch-class name of a note is determined by its pitch
    class, and every chord the matcher recognises spans two names of
    different pitch class at least. *)
Definition names_follow_pitch_class : Prop :=
  forall m m' : Z,
    0 <= m <= 127 -> 0 <= m' <= 127 ->
    midiToPitchClass m = midiToPitchClass m' ->
    Note_pitchClass (midiToNote m) = Note_pitchClass (midiToNote m').

Definition chords_span_two_pitch_classes : Prop :=
  forall names : list string,
    Chord_detect names <> [] ->
    exists a b, a ∈ names /\ b ∈ names /\ Note_pitchClass a <> Note_pitchClass b.

End WithTonal.

(** The classification as the specification words it: case-sensitive
    substring rules on the tag itself, everything else [other]. *)
Definition quality_by_substring_rules (tag : string) : Quality :=
  if includes tag "maj" then major
  else if includes tag "min" || String.eqb tag "m" then minor
  else if includes tag "dim" then diminished
  else if includes tag "aug" then augmented
  else if includes tag "dom" || includes tag "7" then dominant
  else other.

(** [getKeyRange()]: the 49 keys from C2 to C6. *)
Record KeyRange := {
  kr_start : Z;
  kr_end : Z;
  kr_count : Z
}.

Definition getKeyRange : KeyRange := {| kr_start := 36; kr_end := 84; kr_count := 49 |}.

(** [isBlackKey(midiNote)]: [[1, 3, 6, 8, 10].includes(midiNote % 12)] *)
Definition isBlackKey (midiNote : Z) : bool :=
  let pc := Z.rem midiNote 12 in
  existsb (Z.eqb pc) [1; 3; 6; 8; 10].

End ChordDetection.

(** ** components/Piano2D.tsx: the keys of the keyboard *)

Module Piano2D.
Import ChordDetection.

Record Key := {
  midiNote : Z;
  isBlack : bool;
  whiteKeyIndex : Z
}.

(** The body of the loop [for (let note = start; note <= end; note++)],
    over the notes still to visit, with the counter [whiteKeyIndex]. *)
Fixpoint keysFrom (notes : list Z) (counter : Z) : list Key :=
  match notes with
  | [] => []
  | note :: rest =>
      let black := isBlackKey note in
      {| midiNote := note;
         isBlack := black;
         whiteKeyIndex := if black then counter - 1 else counter |}
      :: keysFrom rest (if black then counter else counter + 1)
  end.

Definition keys (first last : Z) : list Key :=
  keysFrom (seqZ first (last - first + 1)) 0.

Definition whiteKeys (ks : list Key) : list Key :=
  List.filter (fun k => negb (isBlack k)) ks.

Definition blackKeys (ks : list Key) : list Key :=
  List.filter (fun k => isBlack k) ks.

Definition totalWhiteKeys (ks : list Key) : Z := Z.of_nat (length (whiteKeys ks)).

(** [WhiteKey]: [keyWidth = 100 / totalWhiteKeys], [left = index * keyWidth]. *)
Definition keyWidth (total : Z) : Q := (100 / inject_Z total)%Q.

Definition whiteLeft (index total : Z) : Q := (inject_Z index * keyWidth total)%Q.

(** [BlackKey]: [left = (whiteKeyIndex + 1) * w - w * 0.35], width
    [w * 0.65]. *)
Definition blackLeft (index total : Z) : Q :=
  ((inject_Z index + 1) * keyWidth total - keyWidth total * (35 # 100))%Q.

Definition blackWidth (total : Z) : Q := (keyWidth total * (65 # 100))%Q.

End Piano2D.

(** ** audio/instruments.ts *)

Module Instruments.

Inductive InstrumentType := sampled | synth.

Record Instrument := {
  id : string;
  name : string;
  type : InstrumentType;
  icon : string
}.

Definition grandPiano : Instrument :=
  {| id := "grand-piano"; name := "Grand Piano"; type := sampled; icon := "🎹" |}.

Definition instruments : list Instrument :=
  [ grandPiano;
    {| id := "electric-piano"; name := "Electric Piano"; type := sampled; icon := "🎸" |};
    {| id := "strings"; name := "Strings"; type := sampled; icon := "🎻" |};
    {| id := "organ"; name := "Organ"; type := synth; icon := "🎛️" |};
    {| id := "synth-pad"; name := "Synth Pad"; type := synth; icon := "🌊" |};
    {| id := "synth-lead"; name := "Synth Lead"; type := synth; icon := "⚡" |} ].

(** [instruments.find(i => i.id === id) || instruments[0]] *)
Definition getInstrument (id' : string) : Instrument :=
  match List.find (fun i => String.eqb (id i) id') instruments with
  | Some i => i
  | None => hd grandPiano instruments
  end.

Definition DEFAULT_INSTRUMENT_ID : string := "grand-piano".
Definition DEFAULT_VOLUME : Q := 80%Q.

End Instruments.

(** ** hooks/useMidi.ts: the active note registry *)

Module Midi.
Import Js.

(** The state update of [handleNoteOn]: [next = new Set(prev); next.add(n)]. *)
Definition handleNoteOn (number : Z) (prev : list Z) : list Z := set_add number prev.

(** The state update of [handleNoteOff]. *)
Definition handleNoteOff (number : Z) (prev : list Z) : list Z := set_delete number prev.

(** The velocity forwarded to [onNoteOn]: [e.note.attack * 127]. *)
Definition forwardedVelocity (attack : Q) : Q := (attack * 127)%Q.

(** What happens to the registry: the two note messages, and the calls
    of [selectInput] and [disconnect], which both do
    [setActiveNotes(new Set())]. The listeners these calls add to and
    remove from the devices are not part of the registry. *)
Inductive RegistryEvent :=
| NoteOn (number : Z)
| NoteOff (number : Z)
| SelectInput (inputId : string)
| Disconnect.

Definition registryStep (activeNotes : list Z) (e : RegistryEvent) : list Z :=
  match e with
  | NoteOn number => handleNoteOn number activeNotes
  | NoteOff number => handleNoteOff number activeNotes
  | SelectInput _ => []
  | Disconnect => []
  end.

Definition registryRun (activeNotes : list Z) (es : list RegistryEvent) : list Z :=
  fold_left registryStep es activeNotes.

(** The events after which the note is held: a note-on for it that no
    later note-off for it, input selection or disconnection follows. *)
Fixpoint heldAfter (number : Z) (held : bool) (es : list RegistryEvent) : bool :=
  match es with
  | [] => held
  | NoteOn n :: rest => heldAfter number (held || Z.eqb n number) rest
  | NoteOff n :: rest => heldAfter number (held && negb (Z.eqb n number)) rest
  | SelectInput _ :: rest => heldAfter number false rest
  | Disconnect :: rest => heldAfter number false rest
  end.

End Midi.

(** ** hooks/useAudio.ts: the audio voice manager *)

Module Audio.
Import Instruments.

(** The value of [synth.volume.value], in decibels. *)
Inductive Db := NegInfinity | Finite (q : Q).

Inductive Oscillator := sine | sawtooth | square.

(** A [Tone.PolySynth] object: its identity, the options it was built
    with and its mutable volume. *)
Record PolySynth := {
  synth_oid : nat;
  oscillator : Oscillator;
  attack : Q;
  decay : Q;
  sustain : Q;
  release : Q;
  synth_volume : Db
}.

(** A smplr instrument object: its identity and its sample set. *)
Inductive SampleSet := SplendidGrandPiano | Soundfont (instrument : string).

Record Sampler := {
  sampler_oid : nat;
  samples : SampleSet
}.

(** [type AudioInstrument = SampledInstrument | SynthInstrument] *)
Inductive AudioInstrument :=
| Sampled (s : Sampler)
| Synth (p : PolySynth).

(** Calls received by the backends. A synthesizer voice is addressed by
    the frequency of its note, [midiToFreq midiNote], which the log keeps
    as the note number; a sampler voice is a fresh voice whose stop
    function, if [start] returns one, stops that voice alone. *)
Inductive BackendCall :=
| TriggerAttack (oid : nat) (midiNote : Z) (velocity : Q)
| TriggerRelease (oid : nat) (midiNote : Z)
| ReleaseAll (oid : nat)
| Start (oid : nat) (note : Z) (velocity : Z) (voice : nat)
| StopVoice (voice : nat).

(** A call suspended at an [await]. *)
Inductive Task :=
| EnableStarting
| EnableLoading (s : Sampler)
| SwitchLoading (instrumentId : string) (s : Sampler).

(** How an awaited promise settles; a rejection carries [err.message]
    when the reason is an [Error]. *)
Inductive Outcome := Fulfilled | Rejected (message : option string).

Record State := {
  (* useState *)
  isEnabled : bool;
  isLoading : bool;
  error : option string;
  currentInstrumentId : string;
  volume : Q;
  (* useRef *)
  audioContextRef : option nat;
  instrumentRef : option AudioInstrument;
  activeNotesRef : gmap Z (option nat);
  (* the world around the hook *)
  tasks : list (nat * Task);
  fresh : nat;
  calls : list BackendCall
}.

Definition init : State :=
  {| isEnabled := false; isLoading := false; error := None;
     currentInstrumentId := DEFAULT_INSTRUMENT_ID; volume := DEFAULT_VOLUME;
     audioContextRef := None; instrumentRef := None; activeNotesRef := ∅;
     tasks := []; fresh := 0; calls := [] |}.

Definition setIsEnabled (b : bool) (s : State) : State :=
  {| isEnabled := b; isLoading := isLoading s; error := error s;
     currentInstrumentId := currentInstrumentId s; volume := volume s;
     audioContextRef := audioContextRef s; instrumentRef := instrumentRef s;
     activeNotesRef := activeNotesRef s;
     tasks := tasks s; fresh := fresh s; calls := calls s |}.

Definition setIsLoading (b : bool) (s : State) : State :=
  {| isEnabled := isEnabled s; isLoading := b; error := error s;
     currentInstrumentId := currentInstrumentId s; volume := volume s;
     audioContextRef := audioContextRef s; instrumentRef := instrumentRef s;
     activeNotesRef := activeNotesRef s;
     tasks := tasks s; fresh := fresh s; calls := calls s |}.

Definition setError (e : option string) (s : State) : State :=
  {| isEnabled := isEnabled s; isLoading := isLoading s; error := e;
     currentInstrumentId := currentInstrumentId s; volume := volume s;
     audioContextRef := audioContextRef s; instrumentRef := instrumentRef s;
     activeNotesRef := activeNotesRef s;
     tasks := tasks s; fresh := fresh s; calls := calls s |}.

Definition setCurrentInstrumentId (i : string) (s : State) : State :=
  {| isEnabled := isEnabled s; isLoading := isLoading s; error := error s;
     currentInstrumentId := i; volume := volume s;
     audioContextRef := audioContextRef s; instrumentRef := instrumentRef s;
     activeNotesRef := activeNotesRef s;
     tasks := tasks s; fresh := fresh s; calls := calls s |}.

Definition setVolumeState (v : Q) (s : State) : State :=
  {| isEnabled := isEnabled s; isLoading := isLoading s; error := error s;
     currentInstrumentId := currentInstrumentId s; volume := v;
     audioContextRef := audioContextRef s; instrumentRef := instrumentRef s;
     activeNotesRef := activeNotesRef s;
     tasks := tasks s; fresh := fresh s; calls := calls s |}.

Definition setAudioContextRef (c : option nat) (s : State) : State :=
  {| isEnabled := isEnabled s; isLoading := isLoading s; error := error s;
     currentInstrumentId := currentInstrumentId s; volume := volume s;
     audioContextRef := c; instrumentRef := instrumentRef s;
     activeNotesRef := activeNotesRef s;
     tasks := tasks s; fresh := fresh s; calls := calls s |}.

Definition setInstrumentRef (i : option AudioInstrument) (s : State) : State :=
  {| isEnabled := isEnabled s; isLoading := isLoading s; error := error s;
     currentInstrumentId := currentInstrumentId s; volume := volume s;
     audioContextRef := audioContextRef s; instrumentRef := i;
     activeNotesRef := activeNotesRef s;
     tasks := tasks s; fresh := fresh s; calls := calls s |}.

Definition setActiveNotesRef (m : gmap Z (option nat)) (s : State) : State :=
  {| isEnabled := isEnabled s; isLoading := isLoading s; error := error s;
     currentInstrumentId := currentInstrumentId s; volume := volume s;
     audioContextRef := audioContextRef s; instrumentRef := instrumentRef s;
     activeNotesRef := m;
     tasks := tasks s; fresh := fresh s; calls := calls s |}.

Definition setTasks (t : list (nat * Task)) (s : State) : State :=
  {| isEnabled := isEnabled s; isLoading := isLoading s; error := error s;
     currentInstrumentId := currentInstrumentId s; volume := volume s;
     audioContextRef := audioContextRef s; instrumentRef := instrumentRef s;
     activeNotesRef := activeNotesRef s;
     tasks := t; fresh := fresh s; calls := calls s |}.

Definition setFresh (n : nat) (s : State) : State :=
  {| isEnabled := isEnabled s; isLoading := isLoading s; error := error s;
     currentInstrumentId := currentInstrumentId s; volume := volume s;
     audioContextRef := audioContextRef s; instrumentRef := instrumentRef s;
     activeNotesRef := activeNotesRef s;
     tasks := tasks s; fresh := n; calls := calls s |}.

(** A backend receives a call. *)
Definition call (c : BackendCall) (s : State) : State :=
  {| isEnabled := isEnabled s; isLoading := isLoading s; error := error s;
     currentInstrumentId := currentInstrumentId s; volume := volume s;
     audioContextRef := audioContextRef s; instrumentRef := instrumentRef s;
     activeNotesRef := activeNotesRef s;
     tasks := tasks s; fresh := fresh s; calls := calls s ++ [c] |}.

(** A new identity (object, voice or task token). *)
Definition bump (s : State) : State := setFresh (S (fresh s)) s.

(** The running call stops at an [await]; the task is resumed by the
    [Settle] event that carries its token. *)
Definition suspend (token : nat) (t : Task) (s : State) : State :=
  setTasks (tasks s ++ [(token, t)]) s.

Definition pending (token : nat) (s : State) : option Task :=
  snd <$> List.find (fun p => Nat.eqb (fst p) token) (tasks s).

Definition forget (token : nat) (s : State) : State :=
  setTasks (List.filter (fun p => negb (Nat.eqb (fst p) token)) (tasks s)) s.

(** [createSynth(type)]: the synthesizer built for a type tag, as object
    [oid]. *)
Definition createSynth (type : string) (oid : nat) : PolySynth :=
  let organ := String.eqb type "organ" in
  let pad := String.eqb type "synth-pad" in
  {| synth_oid := oid;
     oscillator := if organ then sine else if pad then sawtooth else square;
     attack := if organ then 1 # 100 else if pad then 3 # 10 else 1 # 100;
     decay := if organ then 1 # 10 else if pad then 5 # 10 else 2 # 10;
     sustain := if organ then 1 else if pad then 8 # 10 else 5 # 10;
     release := if organ then 1 # 10 else if pad then 15 # 10 else 3 # 10;
     synth_volume := Finite (-6) |}.

(** [loadSampledInstrument(context, instrumentId)] up to its [await]: the
    object constructed for the id, whose [load] promise is then awaited. *)
Definition newSampler (instrumentId : string) (oid : nat) : Sampler :=
  if String.eqb instrumentId "grand-piano" then
    {| sampler_oid := oid; samples := SplendidGrandPiano |}
  else if String.eqb instrumentId "electric-piano" then
    {| sampler_oid := oid; samples := Soundfont "electric_piano_1" |}
  else if String.eqb instrumentId "strings" then
    {| sampler_oid := oid; samples := Soundfont "string_ensemble_1" |}
  else
    {| sampler_oid := oid; samples := SplendidGrandPiano |}.

(** [enable()], up to [await Tone.start()]. *)
Definition enable (s : State) : State :=
  if isEnabled s then s else
  let s := setIsLoading true s in
  let s := setError None s in
  suspend (fresh s) EnableStarting (bump s).

(** [enable()] after [Tone.start()] and, for a suspended context,
    [context.resume()] have been awaited (nothing of the hook changes
    between the two): the context is stored and the default instrument
    starts loading. *)
Definition enableStarted (s : State) : State :=
  let context := fresh s in
  let s := setAudioContextRef (Some context) (bump s) in
  let token := fresh s in
  suspend token (EnableLoading (newSampler DEFAULT_INSTRUMENT_ID token)) (bump s).

(** The outer [catch] and [finally] of [enable()]. *)
Definition enableFailed (message : option string) (s : State) : State :=
  let s := setError (Some (default "Failed to enable audio" message)) s in
  setIsLoading false s.

(** [enable()] after the default instrument has loaded. *)
Definition enableLoaded (instrument : Sampler) (s : State) : State :=
  let s := setInstrumentRef (Some (Sampled instrument)) s in
  let s := setIsEnabled true s in
  setIsLoading false s.

(** [enable()] after the default instrument failed to load: the inner
    [catch]. *)
Definition enableFallback (s : State) : State :=
  let synth := createSynth "organ" (fresh s) in
  let s := setInstrumentRef (Some (Synth synth)) (bump s) in
  let s := setCurrentInstrumentId "organ" s in
  let s := setIsEnabled true s in
  setIsLoading false s.

(** Of the two kinds of backend object only [Tone.PolySynth] has a
    [releaseAll] member. *)
Definition releaseAllIfPresent (s : State) : State :=
  match instrumentRef s with
  | Some (Synth p) => call (ReleaseAll (synth_oid p)) s
  | Some (Sampled _) => s
  | None => s
  end.

(** [setInstrument(instrumentId)], up to the [await] of the sampled
    branch, or to its end on the synthesizer branch, which awaits
    nothing. *)
Definition setInstrument (instrumentId : string) (s : State) : State :=
  match audioContextRef s with
  | None => s
  | Some _ =>
      let instrument := getInstrument instrumentId in
      let s := setIsLoading true s in
      let s := releaseAllIfPresent s in
      match type instrument with
      | sampled =>
          let token := fresh s in
          suspend token (SwitchLoading instrumentId (newSampler instrumentId token)) (bump s)
      | synth =>
          let synth := createSynth instrumentId (fresh s) in
          let s := setInstrumentRef (Some (Synth synth)) (bump s) in
          let s := setCurrentInstrumentId instrumentId s in
          setIsLoading false s
      end
  end.

(** [setInstrument] after the sampler has loaded. *)
Definition switchLoaded (instrumentId : string) (sampler : Sampler) (s : State) : State :=
  let s := setInstrumentRef (Some (Sampled sampler)) s in
  let s := setCurrentInstrumentId instrumentId s in
  setIsLoading false s.

(** [setInstrument] after the load failed: [catch] logs, [finally]. *)
Definition switchFailed (s : State) : State := setIsLoading false s.

(** [Math.round] *)
Definition round (x : Q) : Z := Qfloor (x + (1 # 2)).

(** [Math.max(0.1, velocity / 127)] *)
Definition normalizedVelocity (velocity : Q) : Q := Qmax (1 # 10) (velocity / 127).

(** [Math.max(10, Math.min(127, Math.round(velocity)))] *)
Definition midiVelocity (velocity : Q) : Z := Z.max 10 (Z.min 127 (round velocity)).

(** [playNote(midiNote, velocity)]. [returnsStop] tells whether the
    sampler's [start] answers with a stop function. *)
Definition playNote (midiNote : Z) (velocity : Q) (returnsStop : bool) (s : State) : State :=
  match instrumentRef s with
  | None => s
  | Some (Synth p) =>
      let s := call (TriggerAttack (synth_oid p) midiNote (normalizedVelocity velocity)) s in
      setActiveNotesRef (<[midiNote := None]> (activeNotesRef s)) s
  | Some (Sampled i) =>
      let voice := fresh s in
      let s := call (Start (sampler_oid i) midiNote (midiVelocity velocity) voice) (bump s) in
      let result := if returnsStop then Some voice else None in
      setActiveNotesRef (<[midiNote := result]> (activeNotesRef s)) s
  end.

(** [stopNote(midiNote)] *)
Definition stopNote (midiNote : Z) (s : State) : State :=
  match instrumentRef s with
  | None => s
  | Some instrument =>
      let s :=
        match instrument with
        | Synth p => call (TriggerRelease (synth_oid p) midiNote) s
        | Sampled _ =>
            match activeNotesRef s !! midiNote with
            | Some (Some stopFn) => call (StopVoice stopFn) s
            | _ => s
            end
        end in
      setActiveNotesRef (delete midiNote (activeNotesRef s)) s
  end.

(** [newVolume === 0 ? -Infinity : -60 + (newVolume / 100) * 54], in exact
    arithmetic. The code computes in doubles, each operation being
    rounded; at the volumes 0, 100 and 200 all of them are exact. *)
Definition volumeToDb (newVolume : Q) : Db :=
  if Qeq_bool newVolume 0 then NegInfinity
  else Finite (-60 + (newVolume / 100) * 54)%Q.

Definition withVolume (db : Db) (p : PolySynth) : PolySynth :=
  {| synth_oid := synth_oid p; oscillator := oscillator p;
     attack := attack p; decay := decay p; sustain := sustain p;
     release := release p; synth_volume := db |}.

(** [setVolume(newVolume)] *)
Definition setVolume (newVolume : Q) (s : State) : State :=
  let s := setVolumeState newVolume s in
  match instrumentRef s with
  | Some (Synth p) => setInstrumentRef (Some (Synth (withVolume (volumeToDb newVolume) p))) s
  | _ => s
  end.

(** The continuation of a suspended call. *)
Definition resume (t : Task) (o : Outcome) (s : State) : State :=
  match t, o with
  | EnableStarting, Fulfilled => enableStarted s
  | EnableStarting, Rejected message => enableFailed message s
  | EnableLoading i, Fulfilled => enableLoaded i s
  | EnableLoading _, Rejected _ => enableFallback s
  | SwitchLoading instrumentId i, Fulfilled => switchLoaded instrumentId i s
  | SwitchLoading _ _, Rejected _ => switchFailed s
  end.

(** What happens to the hook: a call of one of its functions, or the
    settling of a promise one of its calls awaits. *)
Inductive Event :=
| Enable
| SetInstrument (instrumentId : string)
| PlayNote (midiNote : Z) (velocity : Q) (returnsStop : bool)
| StopNote (midiNote : Z)
| SetVolume (newVolume : Q)
| Settle (token : nat) (o : Outcome).

Definition step (s : State) (e : Event) : State :=
  match e with
  | Enable => enable s
  | SetInstrument instrumentId => setInstrument instrumentId s
  | PlayNote midiNote velocity returnsStop => playNote midiNote velocity returnsStop s
  | StopNote midiNote => stopNote midiNote s
  | SetVolume newVolume => setVolume newVolume s
  | Settle token o =>
      match pending token s with
      | Some t => resume t o (forget token s)
      | None => s
      end
  end.

Definition run (s : State) (es : list Event) : State := fold_left step es s.

(** The events that come from the keyboard: calls of [playNote] and
    [stopNote]. *)
Definition isNoteEvent (e : Event) : bool :=
  match e with
  | PlayNote _ _ _ | StopNote _ => true
  | _ => false
  end.

(** Voices of the samplers: started, stopped through their stop function,
    and still sounding. *)
Definition startedVoices (note : Z) (cs : list BackendCall) : list nat :=
  omap (fun c => match c with
                 | Start _ n _ v => if Z.eqb n note then Some v else None
                 | _ => None
                 end) cs.

Definition stoppedVoices (cs : list BackendCall) : list nat :=
  omap (fun c => match c with StopVoice v => Some v | _ => None end) cs.

Definition liveVoices (note : Z) (cs : list BackendCall) : list nat :=
  List.filter (fun v => negb (bool_decide (v ∈ stoppedVoices cs))) (startedVoices note cs).

(** The voices the handle table can still stop. *)
Definition releasable (s : State) : list nat :=
  omap (fun kv => snd kv) (map_to_list (activeNotesRef s)).

(** Identities in use are below [fresh], and no two suspended calls share
    a token. *)
Definition wf (s : State) : Prop :=
  NoDup (map fst (tasks s)) /\
  (forall token, token ∈ map fst (tasks s) -> (token < fresh s)%nat) /\
  (forall v, v ∈ stoppedVoices (calls s) -> (v < fresh s)%nat) /\
  (forall k v, activeNotesRef s !! k = Some (Some v) -> (v < fresh s)%nat).

(** The handle table and the voices: a handle kept under a note is that
    of a voice started for this note and not stopped since; voices bear
    identities below [fresh], each started once, for one note. *)
Definition allStarted (cs : list BackendCall) : list nat :=
  omap (fun c => match c with Start _ _ _ v => Some v | _ => None end) cs.

Definition handles_ok (s : State) : Prop :=
  (forall k v, activeNotesRef s !! k = Some (Some v) ->
     v ∈ startedVoices k (calls s) /\ v ∉ stoppedVoices (calls s)) /\
  (forall k k' v, activeNotesRef s !! k = Some (Some v) ->
     activeNotesRef s !! k' = Some (Some v) -> k = k') /\
  (forall v, v ∈ allStarted (calls s) -> (v < fresh s)%nat) /\
  NoDup (allStarted (calls s)) /\
  NoDup (stoppedVoices (calls s)) /\
  (forall v, v ∈ stoppedVoices (calls s) -> v ∈ allStarted (calls s)).

(** Once enabled, an instrument is installed; an instrument is installed,
    or loading, only once the audio context exists. *)
Definition enabled_ok (s : State) : Prop :=
  (isEnabled s = true -> instrumentRef s <> None) /\
  (instrumentRef s <> None -> audioContextRef s <> None) /\
  (forall token t, (token, t) ∈ tasks s -> t <> EnableStarting ->
                   audioContextRef s <> None).

End Audio.

(** ** App.tsx: the listener's events feed the registry and the voice
    manager *)

Module App.

Record State := {
  activeNotes : list Z;
  audio : Audio.State
}.

(** A [noteon] message of the bound device: [handleNoteOn] updates the
    registry and [onNoteOn] plays the note. *)
Definition noteOn (number : Z) (attack : Q) (returnsStop : bool) (a : State) : State :=
  {| activeNotes := Midi.handleNoteOn number (activeNotes a);
     audio := Audio.playNote number (Midi.forwardedVelocity attack) returnsStop (audio a) |}.


(** The body of the effect that syncs the instrument with the settings:
    [if (audio.isEnabled && settings.instrumentId !== audio.currentInstrumentId)
       audio.setInstrument(settings.instrumentId)]. *)
Definition syncInstrument (settingsInstrumentId : string) (s : Audio.State) : Audio.State :=
  if Audio.isEnabled s && negb (String.eqb settingsInstrumentId (Audio.currentInstrumentId s))
  then Audio.setInstrument settingsInstrumentId s
  else s.

End App.

(** ** components/InstrumentDock.tsx: choosing an instrument *)

Module InstrumentDock.
Import Instruments.

(** [instruments.findIndex(i => i.id === currentInstrumentId)] *)
Fixpoint findIndexFrom (k : Z) (l : list Instrument) (currentInstrumentId : string) : Z :=
  match l with
  | [] => -1
  | i :: rest =>
      if String.eqb (id i) currentInstrumentId then k
      else findIndexFrom (k + 1) rest currentInstrumentId
  end.

Definition findIndex (currentInstrumentId : string) : Z :=
  findIndexFrom 0 instruments currentInstrumentId.

(** [prev > 0 ? prev - 1 : instruments.length - 1] *)
Definition arrowLeft (prev : Z) : Z :=
  if (0 <? prev)%Z then prev - 1 else Z.of_nat (length instruments) - 1.

(** [prev < instruments.length - 1 ? prev + 1 : 0] *)
Definition arrowRight (prev : Z) : Z :=
  if (prev <? Z.of_nat (length instruments) - 1)%Z then prev + 1 else 0.

(** [instruments[newIndex].id], which throws when there is no such
    element. *)
Definition idAt (newIndex : Z) : option string :=
  if (newIndex <? 0)%Z then None else id <$> (instruments !! Z.to_nat newIndex).

End InstrumentDock.

(** ** A lookup matcher

    A small implementation of the [Tonal] interface, used to run the
    detection code on concrete chords: flat note names with octaves, and
    five chord templates looked up by the intervals above each candidate
    root. With [slash = false] its [get] does not resolve the slash names
    ([CM/E]) that its [detect] gives to inversions. *)

Module LookupMatcher.

Definition pitchClassNames : list string :=
  ["C"; "Db"; "D"; "Eb"; "E"; "F"; "Gb"; "G"; "Ab"; "A"; "Bb"; "B"].

Definition pitchClassName (chroma : Z) : string :=
  nth (Z.to_nat chroma) pitchClassNames "".

Definition octaveName (o : Z) : string :=
  match o with
  | -1 => "-1" | 0 => "0" | 1 => "1" | 2 => "2" | 3 => "3" | 4 => "4"
  | 5 => "5" | 6 => "6" | 7 => "7" | 8 => "8" | 9 => "9" | _ => ""
  end.

Definition fromMidi (midi : Z) : string :=
  if ((0 <=? midi) && (midi <=? 127))%Z
  then pitchClassName (midi mod 12) ++ octaveName (midi / 12 - 1)
  else "".

Definition isLetter (c : ascii) : bool :=
  let n := nat_of_ascii c in ((65 <=? n) && (n <=? 71))%nat.

Definition isAccidental (c : ascii) : bool :=
  Ascii.eqb c "b" || Ascii.eqb c "#".

Fixpoint accidentals (s : string) : string :=
  match s with
  | String c r => if isAccidental c then String c (accidentals r) else ""
  | EmptyString => ""
  end.

Definition pitchClass (s : string) : string :=
  match s with
  | String c r => if isLetter c then String c (accidentals r) else ""
  | EmptyString => ""
  end.

Fixpoint chromaFrom (k : Z) (names : list string) (pc : string) : option Z :=
  match names with
  | [] => None
  | n :: rest => if String.eqb n pc then Some k else chromaFrom (k + 1) rest pc
  end.

Definition chroma (pc : string) : option Z := chromaFrom 0 pitchClassNames pc.

Record Template := {
  alias : string;
  typeName : string;
  qualityName : string;
  intervals : list Z
}.

Definition templates : list Template :=
  [ {| alias := "M"; typeName := "major"; qualityName := "Major"; intervals := [0; 4; 7] |};
    {| alias := "m"; typeName := "minor"; qualityName := "Minor"; intervals := [0; 3; 7] |};
    {| alias := "7"; typeName := "dominant seventh"; qualityName := "Major"; intervals := [0; 4; 7; 10] |};
    {| alias := "dim"; typeName := "diminished"; qualityName := "Diminished"; intervals := [0; 3; 6] |};
    {| alias := "aug"; typeName := "augmented"; qualityName := "Augmented"; intervals := [0; 4; 8] |} ].

(** The distinct chromas of the names, the first one being the tonic of
    the voicing. *)
Definition chromas (names : list string) : list Z :=
  Js.set_of_list (omap (fun n => chroma (pitchClass n)) names).

Definition intervalsAbove (r : Z) (cs : list Z) : list Z :=
  Js.sort_ascending (map (fun c => (c + 12 - r) mod 12) cs).

Definition matchesAt (tonic : Z) (cs : list Z) (r : Z) : list string :=
  omap (fun t =>
          if bool_decide (intervals t = intervalsAbove r cs)
          then Some (pitchClassName r ++ alias t ++
                     (if Z.eqb r tonic then "" else "/" ++ pitchClassName tonic))
          else None) templates.

Definition detect (names : list string) : list string :=
  match chromas names with
  | tonic :: _ :: _ => concat (map (matchesAt tonic (chromas names)) (chromas names))
  | _ => []
  end.

Definition noChord : ChordInfo :=
  {| ci_empty := true; ci_tonic := None; ci_type := ""; ci_quality := "Unknown" |}.

Definition chordOf (tonic typeAlias : string) : ChordInfo :=
  match List.find (fun t => String.eqb (alias t) typeAlias) templates with
  | Some t => {| ci_empty := false; ci_tonic := Some tonic;
                 ci_type := typeName t; ci_quality := qualityName t |}
  | None => noChord
  end.

Definition get (slash : bool) (name : string) : ChordInfo :=
  let tonic := pitchClass name in
  if String.eqb tonic "" then noChord else
  let rest := String.substring (String.length tonic) (String.length name) name in
  match String.index 0 "/" rest with
  | Some k => if slash then chordOf tonic (String.substring 0 k rest) else noChord
  | None => chordOf tonic rest
  end.

Definition tonal (slash : bool) : Tonal :=
  {| Note_fromMidi := fromMidi;
     Note_pitchClass := pitchClass;
     Chord_detect := detect;
     Chord_get := get slash |}.

(** A variant that knows pitch-class names only: it has no candidate for
    a list in which a name carries an octave. *)
Definition detectPitchClassNames (names : list string) : list string :=
  if forallb (fun n => String.eqb n (pitchClass n)) names then detect names else [].

Definition tonalPitchClassNames : Tonal :=
  {| Note_fromMidi := fromMidi;
     Note_pitchClass := pitchClass;
     Chord_detect := detectPitchClassNames;
     Chord_get := get true |}.

End LookupMatcher.

(** ** A matcher with tonal's chord names

    The three parts of tonal on which the outcome of a detection
    depends. [Chord.detect] tries every pitch class as root, in ascending
    order, and names a chord by the root, the first alias of the chord
    type and, when the root is not the first of the given notes, a slash
    and that first note; chords in root position come first.
    [Chord.get] reads a name back ([tokenize], [tokenizeBass]): the note
    at its head is the tonic, and what follows is split at the slashes;
    with more than one piece the second is the bass if it is a pitch
    class name and the first is then the type, otherwise all that follows
    the tonic is the type; a name that gives no chord in this way is
    looked up as a type of its own. The first alias of the minor/major
    seventh chords is [m/ma7]. *)

Module AliasMatcher.
Import LookupMatcher.

Definition chordTypes : list Template :=
  (templates ++
   [ {| alias := "m/ma7"; typeName := "minor/major seventh"; qualityName := "Minor";
        intervals := [0; 3; 7; 11] |} ])%list.

(** The chords found on the root [r], each with its weight being that of
    an inversion or not. *)
Definition findMatches (tonic : Z) (cs : list Z) (r : Z) : list (bool * string) :=
  omap (fun t =>
          if bool_decide (intervals t = intervalsAbove r cs)
          then Some (if Z.eqb r tonic
                     then (false, pitchClassName r ++ alias t)
                     else (true, pitchClassName r ++ alias t ++ "/" ++ pitchClassName tonic))
          else None) chordTypes.

Definition detect (names : list string) : list string :=
  match chromas names with
  | tonic :: _ =>
      let found := concat (map (findMatches tonic (chromas names))
                               (Js.sort_ascending (chromas names))) in
      (map snd (List.filter (fun f => negb (fst f)) found) ++
       map snd (List.filter (fun f => fst f) found))%list
  | [] => []
  end.

(** [chord.split("/")] *)
Fixpoint split (sep : ascii) (s : string) : list string :=
  match s with
  | EmptyString => [EmptyString]
  | String c r =>
      if Ascii.eqb c sep then EmptyString :: split sep r
      else match split sep r with
           | piece :: pieces => String c piece :: pieces
           | [] => [String c EmptyString]
           end
  end.

Definition isPitchClassName (s : string) : bool :=
  negb (String.eqb s "") && String.eqb (pitchClass s) s.

(** [tokenize(name)]: tonic, type and bass. *)
Definition tokenize (name : string) : string * string * string :=
  let note := pitchClass name in
  let chord := String.substring (String.length note) (String.length name) name in
  match split "/" chord with
  | type :: bass :: _ =>
      if isPitchClassName bass then (note, type, bass) else (note, chord, "")
  | _ => (note, chord, "")
  end.

(** [getChord(typeName, optionalTonic, optionalBass)], as far as the
    fields read by the detection code go. *)
Definition getChord (type tonic bass : string) : ChordInfo :=
  match List.find (fun t => String.eqb (alias t) type || String.eqb (typeName t) type)
                  chordTypes with
  | Some t => {| ci_empty := false;
                 ci_tonic := if String.eqb tonic "" then None else Some tonic;
                 ci_type := typeName t; ci_quality := qualityName t |}
  | None => noChord
  end.

Definition get (name : string) : ChordInfo :=
  if String.eqb name "" then noChord else
  let '(tonic, type, bass) := tokenize name in
  let chord := getChord type tonic bass in
  if ci_empty chord then getChord name "" "" else chord.

Definition tonal : Tonal :=
  {| Note_fromMidi := fromMidi;
     Note_pitchClass := pitchClass;
     Chord_detect := detect;
     Chord_get := get |}.

End AliasMatcher.

(** * Properties *)

(** ** Sets in insertion order and sorting *)

Section JsFacts.
Import Js.

Lemma set_add_elem (x y : Z) (s : list Z) : y ∈ set_add x s <-> y = x \/ y ∈ s.
Proof.
  unfold set_add. case_bool_decide as Hx.
  - split; [auto | intros [-> | H]; assumption].
  - rewrite elem_of_app, list_elem_of_singleton. tauto.
Qed.

Lemma set_add_NoDup (x : Z) (s : list Z) : NoDup s -> NoDup (set_add x s).
Proof.
  intros Hs. unfold set_add. case_bool_decide as Hx; [assumption |].
  apply NoDup_app. split; [assumption |]. split.
  - intros y Hy Hy'. apply list_elem_of_singleton in Hy'. subst. contradiction.
  - apply NoDup_singleton.
Qed.



Lemma fold_set_add_elem (l acc : list Z) (y : Z) :
  y ∈ fold_left (fun acc x => set_add x acc) l acc <-> y ∈ acc \/ y ∈ l.
Proof.
  revert acc. induction l as [| x l IH]; intros acc; simpl.
  - rewrite elem_of_nil. tauto.
  - rewrite IH, set_add_elem, elem_of_cons. tauto.
Qed.

Lemma fold_set_add_NoDup (l acc : list Z) :
  NoDup acc -> NoDup (fold_left (fun acc x => set_add x acc) l acc).
Proof.
  revert acc. induction l as [| x l IH]; intros acc Hacc; simpl; [assumption |].
  apply IH, set_add_NoDup, Hacc.
Qed.

Lemma set_of_list_elem (l : list Z) (y : Z) : y ∈ set_of_list l <-> y ∈ l.
Proof. unfold set_of_list. rewrite fold_set_add_elem, elem_of_nil. tauto. Qed.

Lemma set_of_list_NoDup (l : list Z) : NoDup (set_of_list l).
Proof. apply fold_set_add_NoDup, NoDup_nil_2. Qed.

Lemma two_distinct_length {A : Type} (l : list A) (x y : A) :
  x ∈ l -> y ∈ l -> x <> y -> (2 <= length l)%nat.
Proof.
  intros Hx Hy Hne. destruct l as [| a [| b l]]; simpl; try lia.
  - apply elem_of_nil in Hx. contradiction.
  - apply list_elem_of_singleton in Hx, Hy. congruence.
Qed.

Lemma short_list_one_value {A : Type} (l : list A) (x y : A) :
  (length l < 2)%nat -> x ∈ l -> y ∈ l -> x = y.
Proof.
  intros Hlen Hx Hy. destruct l as [| a [| b l]]; simpl in Hlen; try lia.
  - apply elem_of_nil in Hx. contradiction.
  - apply list_elem_of_singleton in Hx, Hy. congruence.
Qed.

Lemma sort_ascending_length (l : list Z) : length (sort_ascending l) = length l.
Proof. unfold sort_ascending. apply Permutation_length, merge_sort_Permutation. Qed.

Lemma sort_ascending_elem (l : list Z) (y : Z) : y ∈ sort_ascending l <-> y ∈ l.
Proof. unfold sort_ascending. rewrite merge_sort_Permutation. reflexivity. Qed.

Lemma set_delete_elem (x y : Z) (s : list Z) : y ∈ set_delete x s <-> y ∈ s /\ y <> x.
Proof.
  unfold set_delete. rewrite !list_elem_of_In, filter_In, negb_true_iff, Z.eqb_neq.
  reflexivity.
Qed.

Lemma StronglySorted_le_NoDup_lt (l : list Z) :
  StronglySorted Z.le l -> NoDup l -> StronglySorted Z.lt l.
Proof.
  induction 1 as [| x l Hsorted IH Hall]; intros Hnd; constructor.
  - apply IH. apply NoDup_cons in Hnd as [_ Hnd]. exact Hnd.
  - apply NoDup_cons in Hnd as [Hx _].
    rewrite Forall_forall in *. intros y Hy.
    specialize (Hall y Hy). assert (x <> y) by (intros ->; contradiction). lia.
Qed.

End JsFacts.

(** ** Chord quality *)

Section QualityFacts.
Import Js ChordDetection.

Lemma lower_ascii_not_M (c : ascii) : lower_ascii c <> "M"%char.
Proof. destruct c as [[] [] [] [] [] [] [] []]; vm_compute; discriminate. Qed.

Lemma toLowerCase_not_M (s : string) : String.eqb (toLowerCase s) "M" = false.
Proof.
  apply String.eqb_neq. destruct s as [| c [| d r]]; simpl; try discriminate.
  intros H. injection H as H. exact (lower_ascii_not_M c H).
Qed.

Lemma toLowerCase_empty (s : string) : String.eqb (toLowerCase s) "" = String.eqb s "".
Proof. destruct s; reflexivity. Qed.

(** C5 (as stated, refuted): the empty tag is classified [major], where
    the substring rules of the specification give [other]. *)
Lemma getChordQuality_empty_tag_is_major :
  getChordQuality "" = major /\
  quality_by_substring_rules "" = other /\
  getChordQuality "" <> quality_by_substring_rules "".
Proof. vm_compute. repeat split; discriminate. Qed.

(** C5 (amended): for every chord-type tag other than the one-letter tag
    [M], the empty tag is classified [major] and every other tag is
    classified by the substring rules applied, in their order, to the
    lower-cased tag: containing [maj] gives [major]; otherwise containing
    [min] or being [m] gives [minor]; otherwise [dim] gives [diminished];
    otherwise [aug] gives [augmented]; otherwise [dom] or [7] gives
    [dominant]; anything else is [other]. *)
Theorem getChordQuality_rules (tag : string) :
  tag <> "M" ->
  getChordQuality tag =
    if String.eqb tag "" then major
    else quality_by_substring_rules (toLowerCase tag).
Proof.
  intros _. unfold getChordQuality, quality_by_substring_rules.
  rewrite toLowerCase_not_M, toLowerCase_empty, orb_false_r.
  destruct (String.eqb tag ""); [rewrite orb_true_r |  rewrite orb_false_r]; reflexivity.
Qed.

Lemma getChordQuality_rules_witness :
  "maj7" <> "M" /\ getChordQuality "maj7" = major.
Proof.
  split; [discriminate |].
  rewrite (getChordQuality_rules "maj7"); [reflexivity | discriminate].
Defined.

End QualityFacts.

(** ** Chord detection *)

Section DetectionFacts.
Import Js ChordDetection.
Context {T : Tonal}.

Lemma detectChord_below_two (notes : list Z) :
  (length notes < 2)%nat -> detectChord notes = None.
Proof.
  intros H. unfold detectChord.
  destruct (Nat.ltb_spec (length notes) 2) as [_ | Hge]; [reflexivity | lia].
Qed.

Lemma noteNamesOf_elem (notes : list Z) (a : string) :
  a ∈ noteNamesOf notes -> exists m, m ∈ notes /\ a = midiToNote m.
Proof.
  unfold noteNamesOf. rewrite list_elem_of_In, filter_In, in_map_iff.
  intros [(m & <- & Hm) _]. exists m. rewrite list_elem_of_In. auto.
Qed.

Lemma getPitchClasses_elem (notes : list Z) (p : Z) :
  p ∈ getPitchClasses notes <-> exists m, m ∈ notes /\ p = midiToPitchClass m.
Proof.
  unfold getPitchClasses.
  rewrite sort_ascending_elem, set_of_list_elem, list_elem_of_In, in_map_iff.
  split; intros (m & H1 & H2); exists m; rewrite ?list_elem_of_In in *; auto.
Qed.

Lemma getPitchClasses_NoDup (notes : list Z) : NoDup (getPitchClasses notes).
Proof.
  unfold getPitchClasses, sort_ascending.
  rewrite merge_sort_Permutation. apply set_of_list_NoDup.
Qed.

Lemma pitchClassNotesOf_elem (notes : list Z) (a : string) :
  a ∈ pitchClassNotesOf notes ->
  exists p, p ∈ getPitchClasses notes /\
            a = Note_pitchClass (or_else (midiToNote p) "C").
Proof.
  unfold pitchClassNotesOf. rewrite list_elem_of_In, in_map_iff.
  intros (p & <- & Hp). exists p. rewrite list_elem_of_In. auto.
Qed.

Lemma pitchClassNotesOf_length (notes : list Z) :
  length (pitchClassNotesOf notes) = length (getPitchClasses notes).
Proof. unfold pitchClassNotesOf. apply length_map. Qed.

(** The bass note is named after the lowest of the notes. *)
Lemma sort_ascending_hd_lowest (notes : list Z) (m : Z) :
  m ∈ notes -> hd 0 (sort_ascending notes) ∈ notes /\ hd 0 (sort_ascending notes) <= m.
Proof.
  intros Hm.
  pose proof (StronglySorted_merge_sort Z.le notes) as Hsorted.
  assert (Hperm : forall x, x ∈ sort_ascending notes <-> x ∈ notes)
    by (intros x; apply sort_ascending_elem).
  unfold sort_ascending in *.
  destruct (merge_sort Z.le notes) as [| low rest]; simpl.
  - apply Hperm in Hm. apply elem_of_nil in Hm. contradiction.
  - split; [apply Hperm; left |].
    apply Hperm in Hm. apply elem_of_cons in Hm as [Heq | Hm]; [lia |].
    apply StronglySorted_inv in Hsorted as [_ Hall].
    rewrite Forall_forall in Hall. apply Hall. assumption.
Qed.

(** A detected chord bears the first name the matcher gave to one of the
    two attempts, the second being made only after the first gave none. *)
Lemma detectChord_some_inv (notes : list Z) (c : DetectedChord) :
  detectChord notes = Some c ->
  (exists rest, Chord_detect (noteNamesOf notes) = name c :: rest) \/
  (Chord_detect (noteNamesOf notes) = [] /\
   exists rest, Chord_detect (pitchClassNotesOf notes) = name c :: rest).
Proof.
  unfold detectChord.
  destruct (length notes <? 2)%nat; [discriminate |].
  destruct (length (noteNamesOf notes) <? 2)%nat; [discriminate |].
  destruct (Chord_detect (noteNamesOf notes)) as [| first rest].
  - destruct (Chord_detect (pitchClassNotesOf notes)) as [| first rest]; [discriminate |].
    destruct (ci_empty (Chord_get first)); [discriminate |].
    intros [= <-]. right. split; [reflexivity |]. exists rest. reflexivity.
  - destruct (ci_empty (Chord_get first)); [discriminate |].
    intros [= <-]. left. exists rest. reflexivity.
Qed.

(** Two notes of the collection whose pitch classes differ, whenever a
    chord is detected by a matcher whose chords span two pitch classes. *)
Lemma detectChord_some_two_notes (notes : list Z) (c : DetectedChord) :
  chords_span_two_pitch_classes ->
  detectChord notes = Some c ->
  (exists m m', m ∈ notes /\ m' ∈ notes /\
     Note_pitchClass (midiToNote m) <> Note_pitchClass (midiToNote m')) \/
  (exists m m', m ∈ notes /\ m' ∈ notes /\
     midiToPitchClass m <> midiToPitchClass m').
Proof.
  intros Hspan Hc.
  destruct (detectChord_some_inv notes c Hc) as [[rest H] | [_ [rest H]]].
  - destruct (Hspan (noteNamesOf notes)) as (a & b & Ha & Hb & Hab);
      [rewrite H; discriminate |].
    apply noteNamesOf_elem in Ha as (m & Hm & ->).
    apply noteNamesOf_elem in Hb as (m' & Hm' & ->).
    left. exists m, m'. auto.
  - destruct (Hspan (pitchClassNotesOf notes)) as (a & b & Ha & Hb & Hab);
      [rewrite H; discriminate |].
    apply pitchClassNotesOf_elem in Ha as (p & Hp & ->).
    apply pitchClassNotesOf_elem in Hb as (p' & Hp' & ->).
    apply getPitchClasses_elem in Hp as (m & Hm & ->).
    apply getPitchClasses_elem in Hp' as (m' & Hm' & ->).
    right. exists m, m'. repeat split; try assumption. congruence.
Qed.

(** C3: [detectChord] returns none for every collection with fewer than
    two notes, the empty one and a single note included, whatever the
    matcher; with a matcher whose chords span two pitch classes at least,
    also for every collection with fewer than two distinct notes. With
    such a matcher whose note names follow the pitch class, whenever a
    chord of notes in the MIDI range is returned, two distinct pitch
    classes at least are active and the matcher gave a candidate, whose
    first is the chord's name. *)
Theorem detectChord_needs_two_pitch_classes :
  (forall notes : list Z, (length notes < 2)%nat -> detectChord notes = None) /\
  (chords_span_two_pitch_classes ->
   forall notes : list Z,
     (length (set_of_list notes) < 2)%nat -> detectChord notes = None) /\
  (names_follow_pitch_class ->
   chords_span_two_pitch_classes ->
   forall (notes : list Z) (c : DetectedChord),
     Forall (fun m => 0 <= m <= 127) notes ->
     detectChord notes = Some c ->
     (2 <= length (getPitchClasses notes))%nat /\
     exists rest,
       Chord_detect (noteNamesOf notes) = name c :: rest \/
       Chord_detect (pitchClassNotesOf notes) = name c :: rest).
Proof.
  split; [exact detectChord_below_two |]. split.
  - intros Hspan notes Hlen.
    destruct (detectChord notes) as [c |] eqn:Hc; [exfalso | reflexivity].
    assert (exists m m', m ∈ notes /\ m' ∈ notes /\ m <> m') as (m & m' & Hm & Hm' & Hne).
    { destruct (detectChord_some_two_notes notes c Hspan Hc)
        as [(m & m' & Hm & Hm' & Hne) | (m & m' & Hm & Hm' & Hne)];
        exists m, m'; repeat split; try assumption; congruence. }
    apply Hne.
    apply (short_list_one_value (set_of_list notes)); [assumption | |];
      apply set_of_list_elem; assumption.
  - intros Hnames Hspan notes c Hrange Hc. split.
    + assert (exists m m', m ∈ notes /\ m' ∈ notes /\
                midiToPitchClass m <> midiToPitchClass m') as (m & m' & Hm & Hm' & Hne).
      { destruct (detectChord_some_two_notes notes c Hspan Hc)
          as [(m & m' & Hm & Hm' & Hne) | H]; [| exact H].
        exists m, m'. repeat split; try assumption.
        intros Heq. apply Hne.
        rewrite Forall_forall in Hrange.
        apply Hnames; auto. }
      apply (two_distinct_length _ (midiToPitchClass m) (midiToPitchClass m'));
        [apply getPitchClasses_elem; eauto | apply getPitchClasses_elem; eauto | assumption].
    + destruct (detectChord_some_inv notes c Hc) as [[rest H] | [_ [rest H]]];
        exists rest; auto.
Qed.

(** C4 (amended): for at least two notes that all have names,
    [detectChord] hands the octave-aware names to the matcher. If the
    matcher answers with candidates, the first one decides: resolved
    (its chord info is not empty), it is returned with the resolved tonic
    as root (the bass note when there is no tonic) and the resolved type;
    unresolved, the result is none. If the matcher answers with no
    candidate, it is asked again with the pitch-class names (octave
    stripped) of the distinct pitch classes of the notes, in strictly
    ascending order of pitch class, and the first candidate decides in
    the same way (the root being empty when there is no tonic); with no
    candidate at either attempt the result is none. *)
Theorem detectChord_two_attempts (notes : list Z) :
  (2 <= length notes)%nat ->
  (2 <= length (noteNamesOf notes))%nat ->
  let bassNote := midiToNote (hd 0 (sort_ascending notes)) in
  (forall first rest,
     Chord_detect (noteNamesOf notes) = first :: rest ->
     let info := Chord_get first in
     if ci_empty info then detectChord notes = None
     else exists c, detectChord notes = Some c /\ name c = first /\
                    root c = or_else_null (ci_tonic info) bassNote /\
                    type c = ci_type info) /\
  (Chord_detect (noteNamesOf notes) = [] ->
     NoDup (getPitchClasses notes) /\
     StronglySorted Z.lt (getPitchClasses notes) /\
     (forall p, p ∈ getPitchClasses notes <->
                exists m, m ∈ notes /\ p = midiToPitchClass m) /\
     pitchClassNotesOf notes =
       map (fun pc => Note_pitchClass (or_else (midiToNote pc) "C")) (getPitchClasses notes) /\
     length (pitchClassNotesOf notes) = length (getPitchClasses notes) /\
     (forall first rest,
        Chord_detect (pitchClassNotesOf notes) = first :: rest ->
        let info := Chord_get first in
        if ci_empty info then detectChord notes = None
        else exists c, detectChord notes = Some c /\ name c = first /\
                       root c = or_else_null (ci_tonic info) "" /\
                       type c = ci_type info) /\
     (Chord_detect (pitchClassNotesOf notes) = [] -> detectChord notes = None)).
Proof.
  intros Hnotes Hnames bassNote.
  assert (Hguard1 : (length notes <? 2)%nat = false) by (apply Nat.ltb_ge; lia).
  assert (Hguard2 : (length (noteNamesOf notes) <? 2)%nat = false) by (apply Nat.ltb_ge; lia).
  split.
  - intros first rest Hfirst info. unfold detectChord.
    rewrite Hguard1, Hguard2, Hfirst. fold info.
    destruct (ci_empty info); [reflexivity |].
    eexists. split; [reflexivity |]. simpl. auto.
  - intros Hnone.
    split; [apply getPitchClasses_NoDup |].
    split.
    { apply StronglySorted_le_NoDup_lt; [| apply getPitchClasses_NoDup].
      apply StronglySorted_merge_sort; apply _. }
    split; [apply getPitchClasses_elem |].
    split; [reflexivity |].
    split; [apply pitchClassNotesOf_length |].
    split.
    + intros first rest Hfirst info. unfold detectChord.
      rewrite Hguard1, Hguard2, Hnone, Hfirst. fold info.
      destruct (ci_empty info); [reflexivity |].
      eexists. split; [reflexivity |]. simpl. auto.
    + intros Hnone'. unfold detectChord.
      rewrite Hguard1, Hguard2, Hnone, Hnone'. reflexivity.
Qed.

End DetectionFacts.

Section LookupMatcherFacts.
Import Js ChordDetection.

Lemma lookup_names_follow_pitch_class :
  @names_follow_pitch_class (LookupMatcher.tonal true).
Proof.
  assert (Hall : Forall (fun m => LookupMatcher.pitchClass (@midiToNote (LookupMatcher.tonal true) m)
                                  = LookupMatcher.pitchClassName (midiToPitchClass m))
                        (seqZ 0 128)).
  { compute_done. }
  rewrite Forall_forall in Hall.
  intros m m' Hm Hm' Heq.
  simpl. rewrite (Hall m), (Hall m'), Heq; [reflexivity | |]; apply elem_of_seqZ; lia.
Qed.

Lemma lookup_chords_span_two_pitch_classes :
  @chords_span_two_pitch_classes (LookupMatcher.tonal true).
Proof.
  intros names. simpl. unfold LookupMatcher.detect.
  pose proof (set_of_list_NoDup
                (omap (fun n => LookupMatcher.chroma (LookupMatcher.pitchClass n)) names)) as Hnd.
  assert (Hin : forall x, x ∈ LookupMatcher.chromas names ->
                  exists a, a ∈ names /\
                    LookupMatcher.chroma (LookupMatcher.pitchClass a) = Some x).
  { intros x Hx. apply set_of_list_elem, list_elem_of_omap in Hx. exact Hx. }
  fold (LookupMatcher.chromas names) in Hnd.
  destruct (LookupMatcher.chromas names) as [| tonic [| x cs]]; try congruence.
  intros _.
  destruct (Hin tonic) as (a & Ha & Hca); [left |].
  destruct (Hin x) as (b & Hb & Hcb); [right; left |].
  exists a, b. repeat split; try assumption.
  intros Heq. rewrite Heq, Hcb in Hca. injection Hca as ->.
  apply NoDup_cons in Hnd as [Hnotin _]. apply Hnotin. left.
Qed.

(** C3, on the single note C4, on C4 played twice and on the chord
    C4 E4 G4 of the lookup matcher. *)
Lemma detectChord_needs_two_pitch_classes_witness :
  @detectChord (LookupMatcher.tonal true) [60] = None /\
  @detectChord (LookupMatcher.tonal true) [60; 60] = None /\
  (2 <= length (getPitchClasses [60; 64; 67]%Z))%nat.
Proof.
  pose proof (@detectChord_needs_two_pitch_classes (LookupMatcher.tonal true))
    as (Hshort & Hsame & Hsome).
  split; [| split].
  - apply Hshort. simpl. lia.
  - apply (Hsame lookup_chords_span_two_pitch_classes). vm_compute. lia.
  - refine (proj1 (Hsome lookup_names_follow_pitch_class lookup_chords_span_two_pitch_classes
                     [60; 64; 67] _ _ _)).
    + repeat constructor; lia.
    + vm_compute. reflexivity.
Defined.

(** C4 (as stated, refuted): C4 Db4 E4 Ab4 is the minor/major seventh
    chord on Db over the bass C. The octave-aware attempt has a candidate,
    [Dbm/ma7/C]; read back, the name is split at the slash of the alias,
    [ma7] is no bass note, and no chord type is called [m/ma7/C]: the
    candidate is not resolved and [detectChord] returns none. The same
    matcher resolves the slash name of an inversion: Gb4 A4 C5 D5 is
    [D7/Gb], with root D. *)
Lemma detectChord_unresolved_candidate :
  @noteNamesOf AliasMatcher.tonal [60; 61; 64; 68] = ["C4"; "Db4"; "E4"; "Ab4"] /\
  @Chord_detect AliasMatcher.tonal ["C4"; "Db4"; "E4"; "Ab4"] = ["Dbm/ma7/C"] /\
  ci_empty (@Chord_get AliasMatcher.tonal "Dbm/ma7/C") = true /\
  @detectChord AliasMatcher.tonal [60; 61; 64; 68] = None /\
  exists c, @detectChord AliasMatcher.tonal [66; 69; 72; 74] = Some c /\
            name c = "D7/Gb" /\ root c = "D" /\ type c = "dominant seventh".
Proof.
  split; [vm_compute; reflexivity |].
  split; [vm_compute; reflexivity |].
  split; [vm_compute; reflexivity |].
  split; [vm_compute; reflexivity |].
  eexists. split; [vm_compute; reflexivity |]. repeat split.
Qed.

(** C4 (amended), on the chord C4 E4 G4 of the lookup matcher. *)
Lemma detectChord_two_attempts_witness :
  exists c, @detectChord (LookupMatcher.tonal true) [60; 64; 67] = Some c /\
            name c = "CM" /\ root c = "C" /\ type c = "major".
Proof.
  pose proof (@detectChord_two_attempts (LookupMatcher.tonal true) [60; 64; 67]) as H.
  simpl in H. destruct H as [H _]; [lia | lia |].
  exact (H "CM" [] eq_refl).
Defined.

End LookupMatcherFacts.

(** ** The audio voice manager *)

Section AudioFacts.
Import Instruments Audio.

Arguments getInstrument : simpl never.
Arguments newSampler : simpl never.
Arguments createSynth : simpl never.
Arguments normalizedVelocity : simpl never.
Arguments midiVelocity : simpl never.
Arguments volumeToDb : simpl never.

(** *** Suspended calls *)

Lemma find_token_skip (l l' : list (nat * Task)) (token : nat) :
  token ∉ map fst l ->
  List.find (fun p => Nat.eqb (fst p) token) (l ++ l')%list =
  List.find (fun p => Nat.eqb (fst p) token) l'.
Proof.
  induction l as [| [k t] l IH]; intros Hnot; simpl; [reflexivity |].
  simpl in Hnot. apply not_elem_of_cons in Hnot as [Hne Hnot].
  destruct (Nat.eqb_spec k token); [congruence | auto].
Qed.

Lemma filter_token_skip (l : list (nat * Task)) (token : nat) :
  token ∉ map fst l ->
  List.filter (fun p => negb (Nat.eqb (fst p) token)) l = l.
Proof.
  induction l as [| [k t] l IH]; intros Hnot; simpl; [reflexivity |].
  simpl in Hnot. apply not_elem_of_cons in Hnot as [Hne Hnot].
  destruct (Nat.eqb_spec k token); [congruence |]. simpl. f_equal. auto.
Qed.

Lemma fresh_token_unused (s : State) (token : nat) :
  wf s -> (fresh s <= token)%nat -> token ∉ map fst (tasks s).
Proof. intros (_ & Hlt & _) Hle Hin. apply Hlt in Hin. lia. Qed.

(** Settling the token of a call suspended last, among tokens that are
    all different from it. *)
Lemma settle_suspended (s : State) (l l' : list (nat * Task)) (token : nat)
      (t : Task) (o : Outcome) :
  tasks s = (l ++ (token, t) :: l')%list ->
  token ∉ map fst l ->
  token ∉ map fst l' ->
  step s (Settle token o) = resume t o (setTasks (l ++ l') s).
Proof.
  intros Htasks Hl Hl'. simpl. unfold pending, forget. rewrite Htasks.
  rewrite find_token_skip by assumption. simpl. rewrite Nat.eqb_refl. simpl.
  rewrite List.filter_app, filter_token_skip by assumption.
  simpl. rewrite Nat.eqb_refl. simpl.
  rewrite filter_token_skip by assumption. reflexivity.
Qed.

Lemma wf_init : wf init.
Proof.
  unfold wf, init. simpl. split; [apply NoDup_nil_2 |].
  split; [| split]; try (intros ? H; apply elem_of_nil in H; contradiction).
  intros k v H. rewrite lookup_empty in H. discriminate.
Qed.

(** *** Volume *)

Lemma volumeToDb_silence : volumeToDb 0 = NegInfinity.
Proof. reflexivity. Qed.

(** C2 (code at the failing input): on a synthesizer, [setVolume(0)] sets
    the volume to minus infinity, and [setVolume(100)] sets it to -6 dB,
    the top of the range reached by the conversion, not to 0 dB. *)
Theorem setVolume_synth_bounds (s : State) (p : PolySynth) :
  let s0 := setInstrumentRef (Some (Synth p)) s in
  instrumentRef (setVolume 0 s0) = Some (Synth (withVolume NegInfinity p)) /\
  exists q, instrumentRef (setVolume 100 s0) = Some (Synth (withVolume (Finite q) p)) /\
            (q == -6)%Q /\ ~ (q == 0)%Q.
Proof.
  simpl. split; [reflexivity |].
  eexists. split; [reflexivity |]. split; [reflexivity | discriminate].
Qed.

(** *** The invariant *)

Lemma filter_tokens (g : nat * Task -> bool) (l : list (nat * Task)) :
  NoDup (map fst l) ->
  NoDup (map fst (List.filter g l)) /\
  (forall token, token ∈ map fst (List.filter g l) -> token ∈ map fst l).
Proof.
  induction l as [| [k t] l IH]; simpl; intros Hnd; [split; auto |].
  apply NoDup_cons in Hnd as [Hk Hnd]. destruct (IH Hnd) as [IH1 IH2].
  destruct (g (k, t)); simpl.
  - split.
    + apply NoDup_cons. split; [intros Hin; apply Hk, IH2, Hin | assumption].
    + intros token Hin. apply elem_of_cons in Hin as [-> | Hin]; [left | right; auto].
  - split; [assumption |]. intros token Hin. right. auto.
Qed.

Lemma wf_forget (s : State) (token : nat) : wf s -> wf (forget token s).
Proof.
  intros (Hnd & Hlt & Hv & Hh). unfold wf, forget. simpl.
  destruct (filter_tokens (fun p => negb (Nat.eqb (fst p) token)) (tasks s) Hnd) as [H1 H2].
  repeat split; auto.
Qed.

(** A step that adds suspended calls under new tokens, stops voices of
    the handle table only, and stores new voices only, keeps the
    invariant. *)
Lemma wf_change (s s' : State) (new : list (nat * Task)) :
  wf s ->
  (fresh s <= fresh s')%nat ->
  tasks s' = (tasks s ++ new)%list ->
  NoDup (map fst new) ->
  (forall token, token ∈ map fst new -> (fresh s <= token < fresh s')%nat) ->
  (forall v, v ∈ stoppedVoices (calls s') ->
             v ∈ stoppedVoices (calls s) \/ (v < fresh s')%nat) ->
  (forall k v, activeNotesRef s' !! k = Some (Some v) ->
               activeNotesRef s !! k = Some (Some v) \/ (v < fresh s')%nat) ->
  wf s'.
Proof.
  intros (Hnd & Hlt & Hv & Hh) Hfresh Htasks Hnew Hrange Hstop Htable.
  unfold wf. rewrite Htasks, map_app. repeat split.
  - apply NoDup_app. repeat split; try assumption.
    intros token Hin Hin'. apply Hlt in Hin. apply Hrange in Hin'. lia.
  - intros token Hin. apply elem_of_app in Hin as [Hin | Hin].
    + apply Hlt in Hin. lia.
    + apply Hrange in Hin. lia.
  - intros v Hin. destruct (Hstop v Hin) as [H | H]; [apply Hv in H; lia | assumption].
  - intros k v Hk. destruct (Htable k v Hk) as [H | H]; [apply Hh in H; lia | assumption].
Qed.

Lemma stoppedVoices_snoc (cs : list BackendCall) (c : BackendCall) :
  stoppedVoices (cs ++ [c]) =
  (stoppedVoices cs ++ match c with StopVoice v => [v] | _ => [] end)%list.
Proof. unfold stoppedVoices. rewrite omap_app. destruct c; reflexivity. Qed.

Lemma startedVoices_snoc (note : Z) (cs : list BackendCall) (c : BackendCall) :
  startedVoices note (cs ++ [c]) =
  (startedVoices note cs ++
   match c with
   | Start _ n _ v => if Z.eqb n note then [v] else []
   | _ => []
   end)%list.
Proof.
  unfold startedVoices. rewrite omap_app. destruct c; try reflexivity.
  simpl. destruct (Z.eqb note0 note); reflexivity.
Qed.

Ltac wf_frame Hwf :=
  apply (wf_change _ _ [] Hwf); simpl;
  [ lia
  | rewrite ?app_nil_r; reflexivity
  | apply NoDup_nil_2
  | intros ? Hin; apply elem_of_nil in Hin; contradiction
  | rewrite ?stoppedVoices_snoc, ?app_nil_r; auto
  | auto ].

Ltac wf_suspended Hwf :=
  eapply (wf_change _ _ [_] Hwf); simpl;
  [ lia
  | reflexivity
  | apply NoDup_singleton
  | intros ? Hin; simpl in Hin; apply list_elem_of_singleton in Hin; lia
  | rewrite ?stoppedVoices_snoc, ?app_nil_r; auto
  | auto ].

Lemma wf_resume (s : State) (t : Task) (o : Outcome) : wf s -> wf (resume t o s).
Proof.
  intros Hwf.
  destruct t as [| i | instrumentId i], o as [| message]; simpl;
    unfold enableStarted, enableFailed, enableLoaded, enableFallback,
           switchLoaded, switchFailed;
    first [ wf_frame Hwf | wf_suspended Hwf ].
Qed.

Lemma wf_step (s : State) (e : Event) : wf s -> wf (step s e).
Proof.
  intros Hwf. destruct e as [| instrumentId | midiNote velocity r | midiNote | v | token o]; simpl.
  - unfold enable. destruct (isEnabled s); [assumption |]. wf_suspended Hwf.
  - unfold setInstrument, releaseAllIfPresent. simpl.
    destruct (audioContextRef s); [| assumption].
    destruct (type (getInstrument instrumentId)), (instrumentRef s) as [[i | p] |];
      first [ wf_frame Hwf | wf_suspended Hwf ].
  - unfold playNote. destruct (instrumentRef s) as [[i | p] |]; [| | assumption].
    + wf_frame Hwf. intros k v.
      rewrite lookup_insert_Some. intros [[_ Hv] | [_ Hv]]; [| auto].
      destruct r; [injection Hv as <-; right; lia | discriminate].
    + wf_frame Hwf. intros k v.
      rewrite lookup_insert_Some. intros [[_ Hv] | [_ Hv]]; [discriminate | auto].
  - unfold stopNote. destruct (instrumentRef s) as [[i | p] |]; [| | assumption].
    + destruct (activeNotesRef s !! midiNote) as [[stopFn |] |] eqn:Hn.
      * wf_frame Hwf.
        -- intros v Hin. apply elem_of_app in Hin as [Hin | Hin]; [auto |].
           apply list_elem_of_singleton in Hin. subst v. right.
           destruct Hwf as (_ & _ & _ & Hh). apply (Hh midiNote). assumption.
        -- intros k v. rewrite lookup_delete_Some. intros [_ Hv]. auto.
      * wf_frame Hwf. intros k v. rewrite lookup_delete_Some. intros [_ Hv]. auto.
      * wf_frame Hwf. intros k v. rewrite lookup_delete_Some. intros [_ Hv]. auto.
    + wf_frame Hwf. intros k v. rewrite lookup_delete_Some. intros [_ Hv]. auto.
  - unfold setVolume. simpl. destruct (instrumentRef s) as [[i | p] |]; wf_frame Hwf.
  - destruct (pending token s); [| assumption]. apply wf_resume, wf_forget, Hwf.
Qed.

Lemma wf_run (es : list Event) (s : State) : wf s -> wf (run s es).
Proof.
  revert s. induction es as [| e es IH]; intros s Hwf; [assumption |].
  apply IH, wf_step, Hwf.
Qed.

(** *** Velocity *)

Lemma round_integer (v : Z) : round (inject_Z v) = v.
Proof.
  unfold round, Qfloor, Qplus, inject_Z. simpl.
  symmetry. apply Z.div_unique with (r := 1); lia.
Qed.

Lemma midiVelocity_integer (v : Z) : midiVelocity (inject_Z v) = Z.max 10 (Z.min 127 v).
Proof. unfold midiVelocity. rewrite round_integer. reflexivity. Qed.

(** C7: a velocity [v] of 0..127 is sent to a synthesizer as the gain
    max(0.1, v/127), which is 0.1 for 0 and 1 for 127, and to a sampler
    as [v] clamped to 10..127, which is 10 for 0 and 127 for 127. *)
Theorem playNote_velocity (s : State) (midiNote v : Z) (returnsStop : bool) :
  0 <= v <= 127 ->
  (forall p, instrumentRef s = Some (Synth p) ->
     exists gain,
       calls (playNote midiNote (inject_Z v) returnsStop s) =
         (calls s ++ [TriggerAttack (synth_oid p) midiNote gain])%list /\
       (gain == Qmax (1 # 10) (inject_Z v / 127))%Q /\
       (1 # 10 <= gain)%Q /\ (gain <= 1)%Q /\
       (v = 0 -> (gain == 1 # 10)%Q) /\
       (v = 127 -> (gain == 1)%Q)) /\
  (forall i, instrumentRef s = Some (Sampled i) ->
     exists velocity,
       calls (playNote midiNote (inject_Z v) returnsStop s) =
         (calls s ++ [Start (sampler_oid i) midiNote velocity (fresh s)])%list /\
       velocity = Z.max 10 (Z.min 127 v) /\
       10 <= velocity <= 127 /\
       (v = 0 -> velocity = 10) /\
       (v = 127 -> velocity = 127)).
Proof.
  intros Hv. split.
  - intros p Hp. exists (normalizedVelocity (inject_Z v)).
    unfold playNote. rewrite Hp. simpl.
    split; [reflexivity |]. split; [reflexivity |].
    unfold normalizedVelocity.
    split; [apply Q.le_max_l |].
    split.
    + apply Q.max_lub; [discriminate |].
      unfold Qle, Qdiv, Qmult, Qinv, inject_Z. simpl. lia.
    + split; intros ->; reflexivity.
  - intros i Hi. exists (midiVelocity (inject_Z v)).
    unfold playNote. rewrite Hi. simpl.
    split; [reflexivity |]. rewrite midiVelocity_integer.
    split; [reflexivity |]. lia.
Qed.

Lemma playNote_velocity_witness :
  exists velocity,
    calls (playNote 60 (inject_Z 0) true
             (setInstrumentRef (Some (Sampled (newSampler "grand-piano" 0))) init)) =
      [Start 0 60 velocity 0] /\ velocity = 10.
Proof.
  destruct (playNote_velocity
              (setInstrumentRef (Some (Sampled (newSampler "grand-piano" 0))) init)
              60 0 true) as [_ H]; [lia |].
  destruct (H (newSampler "grand-piano" 0) eq_refl) as (velocity & Hcalls & _ & _ & H0 & _).
  exists velocity. split; [exact Hcalls | exact (H0 eq_refl)].
Defined.

(** *** Enabling *)

Lemma run_nil (s : State) : run s [] = s.
Proof. reflexivity. Qed.

Lemma run_cons (s : State) (e : Event) (es : list Event) :
  run s (e :: es) = run (step s e) es.
Proof. reflexivity. Qed.

(** C9: when the load of the default sampled instrument fails during
    [enable()], audio ends up enabled on the organ synthesizer, and the
    current instrument id reports the organ. *)
Theorem enable_falls_back_to_synth (s : State) (message : option string) :
  wf s ->
  isEnabled s = false ->
  let starting := fresh s in
  let loading := S (S (fresh s)) in
  let s' := run s [Enable; Settle starting Fulfilled; Settle loading (Rejected message)] in
  isEnabled s' = true /\
  instrumentRef s' = Some (Synth (createSynth "organ" (S loading))) /\
  currentInstrumentId s' = "organ" /\
  type (getInstrument (currentInstrumentId s')) = synth /\
  isLoading s' = false /\
  error s' = None.
Proof.
  intros Hwf Hoff starting loading s'. subst s'.
  rewrite !run_cons, run_nil.
  assert (Hnew : forall k, (fresh s <= k)%nat -> k ∉ map fst (tasks s))
    by (intros k Hk; apply fresh_token_unused; assumption).
  change (step s Enable) with (enable s). unfold enable. rewrite Hoff.
  erewrite (settle_suspended _ (tasks s) [] starting EnableStarting);
    [| reflexivity | apply Hnew; lia | apply not_elem_of_nil].
  simpl resume. unfold enableStarted.
  erewrite (settle_suspended _ (tasks s) [] loading);
    [| simpl; rewrite app_nil_r; reflexivity | apply Hnew; subst loading; lia
     | apply not_elem_of_nil].
  simpl. repeat split; reflexivity.
Qed.

Lemma enable_falls_back_to_synth_witness :
  let s' := run init [Enable; Settle 0 Fulfilled; Settle 2 (Rejected None)] in
  isEnabled s' = true /\ currentInstrumentId s' = "organ".
Proof.
  destruct (enable_falls_back_to_synth init None wf_init eq_refl)
    as (Hon & _ & Hid & _).
  split; [exact Hon | exact Hid].
Defined.

(** *** Switching instruments *)

Lemma releaseAllIfPresent_frame (s : State) :
  tasks (releaseAllIfPresent s) = tasks s /\
  fresh (releaseAllIfPresent s) = fresh s /\
  instrumentRef (releaseAllIfPresent s) = instrumentRef s /\
  audioContextRef (releaseAllIfPresent s) = audioContextRef s /\
  currentInstrumentId (releaseAllIfPresent s) = currentInstrumentId s /\
  activeNotesRef (releaseAllIfPresent s) = activeNotesRef s /\
  isLoading (releaseAllIfPresent s) = isLoading s.
Proof.
  unfold releaseAllIfPresent.
  destruct (instrumentRef s) as [[i | p] |] eqn:H; simpl; rewrite ?H; repeat split.
Qed.

(** The state in which [setInstrument] leaves the hook when the
    instrument is a sampled one: loading, with the outgoing backend
    still installed. *)
Lemma setInstrument_sampled (s : State) (instrumentId : string) (context : nat) :
  audioContextRef s = Some context ->
  type (getInstrument instrumentId) = sampled ->
  let s1 := setInstrument instrumentId s in
  tasks s1 = (tasks s ++ [(fresh s, SwitchLoading instrumentId
                                      (newSampler instrumentId (fresh s)))])%list /\
  fresh s1 = S (fresh s) /\
  isLoading s1 = true /\
  instrumentRef s1 = instrumentRef s /\
  audioContextRef s1 = audioContextRef s /\
  currentInstrumentId s1 = currentInstrumentId s /\
  activeNotesRef s1 = activeNotesRef s /\
  calls s1 = calls (releaseAllIfPresent s).
Proof.
  intros Hctx Htype. unfold setInstrument. rewrite Hctx, Htype.
  unfold releaseAllIfPresent. simpl.
  destruct (instrumentRef s) as [[i | p] |] eqn:H; simpl; rewrite ?H;
    repeat split; assumption.
Qed.

Lemma wf_setInstrument_sampled (s : State) (instrumentId : string) (context : nat) :
  wf s ->
  audioContextRef s = Some context ->
  type (getInstrument instrumentId) = sampled ->
  (fresh s ∉ map fst (tasks s)) /\
  (S (fresh s) ∉ map fst (tasks (setInstrument instrumentId s))).
Proof.
  intros Hwf Hctx Htype.
  destruct (setInstrument_sampled s instrumentId context Hctx Htype) as (Ht & _).
  split; [apply fresh_token_unused; auto |].
  rewrite Ht, map_app. simpl. intros Hin.
  apply elem_of_app in Hin as [Hin | Hin].
  - revert Hin. apply fresh_token_unused; auto.
  - apply list_elem_of_singleton in Hin. lia.
Qed.

Lemma setInstrument_without_context (s : State) (instrumentId : string) :
  audioContextRef s = None -> setInstrument instrumentId s = s.
Proof. intros H. unfold setInstrument. rewrite H. reflexivity. Qed.

(** C1 (as stated, refuted): the piano is active, [setInstrument] is
    called for the electric piano and then for the strings, and the load
    of the strings settles first: the backend installed at the end is the
    electric piano's, the instrument of the first call. *)
Lemma setInstrument_stale_load_wins :
  let s := run init [Enable; Settle 0 Fulfilled; Settle 2 Fulfilled;
                     SetInstrument "electric-piano"; SetInstrument "strings";
                     Settle 4 Fulfilled; Settle 3 Fulfilled] in
  instrumentRef s =
    Some (Sampled {| sampler_oid := 3; samples := Soundfont "electric_piano_1" |}) /\
  instrumentRef s <> Some (Sampled (newSampler "strings" 4)) /\
  currentInstrumentId s = "electric-piano" /\
  tasks s = [].
Proof. vm_compute. repeat split. discriminate. Qed.

(** C1 (amended): when [setInstrument(A)] and then [setInstrument(B)] are
    called for sampled instruments before the load of [A] settles, and
    both loads succeed, the backend active after both is that of the
    load that settled last: [B]'s when [A]'s load settles first, [A]'s
    when [B]'s load settles first. *)
Theorem setInstrument_last_settled_wins (s : State) (A B : string) (context : nat) :
  wf s ->
  audioContextRef s = Some context ->
  type (getInstrument A) = sampled ->
  type (getInstrument B) = sampled ->
  let loadA := fresh s in
  let loadB := S (fresh s) in
  let s2 := run s [SetInstrument A; SetInstrument B] in
  let A_then_B := run s2 [Settle loadA Fulfilled; Settle loadB Fulfilled] in
  let B_then_A := run s2 [Settle loadB Fulfilled; Settle loadA Fulfilled] in
  (instrumentRef A_then_B = Some (Sampled (newSampler B loadB)) /\
   currentInstrumentId A_then_B = B /\ tasks A_then_B = tasks s) /\
  (instrumentRef B_then_A = Some (Sampled (newSampler A loadA)) /\
   currentInstrumentId B_then_A = A /\ tasks B_then_A = tasks s).
Proof.
  intros Hwf Hctx HA HB loadA loadB s2 A_then_B B_then_A.
  destruct (setInstrument_sampled s A context Hctx HA) as (Ht1 & Hf1 & _ & _ & Hc1 & _).
  destruct (wf_setInstrument_sampled s A context Hwf Hctx HA) as [HnA _].
  set (s1 := setInstrument A s) in *.
  assert (Hctx1 : audioContextRef s1 = Some context) by congruence.
  destruct (setInstrument_sampled s1 B context Hctx1 HB) as (Ht2 & _).
  assert (HnB : loadB ∉ map fst (tasks s))
    by (apply fresh_token_unused; [assumption | subst loadB; lia]).
  assert (Hs2 : s2 = setInstrument B s1) by reflexivity.
  rewrite Ht1, Hf1, <- Hs2 in Ht2. fold loadA loadB in Ht2, HnA.
  assert (Hne : loadA <> loadB) by (subst loadA loadB; lia).
  split.
  - subst A_then_B. rewrite !run_cons, run_nil.
    erewrite (settle_suspended s2 (tasks s) [_] loadA);
      [| rewrite Ht2, <- app_assoc; reflexivity | assumption
       | simpl; rewrite list_elem_of_singleton; assumption].
    simpl resume.
    erewrite (settle_suspended _ (tasks s) [] loadB);
      [| reflexivity | assumption | apply not_elem_of_nil].
    simpl. rewrite app_nil_r. repeat split.
  - subst B_then_A. rewrite !run_cons, run_nil.
    erewrite (settle_suspended s2 (tasks s ++ [_]) [] loadB);
      [| rewrite Ht2; reflexivity
       | rewrite map_app, elem_of_app; simpl; rewrite list_elem_of_singleton; intros [? | ?];
         [contradiction | congruence]
       | apply not_elem_of_nil].
    simpl resume.
    erewrite (settle_suspended _ (tasks s) [] loadA);
      [| simpl; rewrite app_nil_r; reflexivity | assumption | apply not_elem_of_nil].
    simpl. rewrite app_nil_r. repeat split.
Qed.

Lemma setInstrument_last_settled_wins_witness :
  let s := run init [Enable; Settle 0 Fulfilled; Settle 2 Fulfilled] in
  let s2 := run s [SetInstrument "electric-piano"; SetInstrument "strings"] in
  currentInstrumentId (run s2 [Settle 3 Fulfilled; Settle 4 Fulfilled]) = "strings" /\
  currentInstrumentId (run s2 [Settle 4 Fulfilled; Settle 3 Fulfilled]) = "electric-piano".
Proof.
  assert (Hwf : wf (run init [Enable; Settle 0 Fulfilled; Settle 2 Fulfilled])).
  { apply wf_run, wf_init. }
  destruct (setInstrument_last_settled_wins
              (run init [Enable; Settle 0 Fulfilled; Settle 2 Fulfilled])
              "electric-piano" "strings" 1%nat Hwf eq_refl eq_refl eq_refl)
    as [(_ & H1 & _) (_ & H2 & _)].
  split; [exact H1 | exact H2].
Defined.

(** C10: an id that is not in the catalog is described by the catalog's
    first entry, the grand piano; [setInstrument] with such an id, once
    its load has succeeded, has installed a grand-piano sampler and
    reports the unknown id as current instrument, which is not the id of
    the instrument installed. *)
Theorem setInstrument_unknown_id (s : State) (instrumentId : string) (context : nat) :
  instrumentId ∉ map id instruments ->
  getInstrument instrumentId = grandPiano /\
  getInstrument instrumentId = hd grandPiano instruments /\
  (wf s ->
   audioContextRef s = Some context ->
   let s' := run s [SetInstrument instrumentId; Settle (fresh s) Fulfilled] in
   instrumentRef s' =
     Some (Sampled {| sampler_oid := fresh s; samples := SplendidGrandPiano |}) /\
   instrumentRef s' = Some (Sampled (newSampler DEFAULT_INSTRUMENT_ID (fresh s))) /\
   currentInstrumentId s' = instrumentId /\
   currentInstrumentId s' <> id (getInstrument (currentInstrumentId s'))).
Proof.
  intros Hunknown. simpl in Hunknown.
  repeat (apply not_elem_of_cons in Hunknown as [? Hunknown]).
  assert (Hget : getInstrument instrumentId = grandPiano).
  { unfold getInstrument, instruments. cbn [List.find id grandPiano].
    repeat (match goal with
            | H : instrumentId <> ?x |- context [String.eqb ?x instrumentId] =>
                rewrite (proj2 (String.eqb_neq x instrumentId)) by congruence
            end).
    reflexivity. }
  split; [exact Hget |]. split; [exact Hget |].
  intros Hwf Hctx s'. subst s'.
  assert (Htype : type (getInstrument instrumentId) = sampled) by (rewrite Hget; reflexivity).
  assert (Hnew : newSampler instrumentId (fresh s) =
                 {| sampler_oid := fresh s; samples := SplendidGrandPiano |}).
  { unfold newSampler.
    repeat (match goal with
            | H : instrumentId <> ?x |- context [String.eqb instrumentId ?x] =>
                rewrite (proj2 (String.eqb_neq instrumentId x)) by congruence
            end).
    reflexivity. }
  destruct (setInstrument_sampled s instrumentId context Hctx Htype) as (Ht & _).
  destruct (wf_setInstrument_sampled s instrumentId context Hwf Hctx Htype) as [Hn _].
  rewrite !run_cons, run_nil.
  change (step s (SetInstrument instrumentId)) with (setInstrument instrumentId s).
  erewrite (settle_suspended _ (tasks s) [] (fresh s));
    [| rewrite Ht; reflexivity | assumption | apply not_elem_of_nil].
  simpl. rewrite Hnew, Hget. repeat split. simpl. assumption.
Qed.

Lemma setInstrument_unknown_id_witness :
  let s := run init [Enable; Settle 0 Fulfilled; Settle 2 Fulfilled] in
  let s' := run s [SetInstrument "harpsichord"; Settle (fresh s) Fulfilled] in
  getInstrument "harpsichord" = grandPiano /\
  currentInstrumentId s' = "harpsichord".
Proof.
  assert (Hunknown : "harpsichord" ∉ map id instruments).
  { simpl. repeat (apply not_elem_of_cons; split; [discriminate |]). apply not_elem_of_nil. }
  assert (Hwf : wf (run init [Enable; Settle 0 Fulfilled; Settle 2 Fulfilled])).
  { apply wf_run, wf_init. }
  destruct (setInstrument_unknown_id
              (run init [Enable; Settle 0 Fulfilled; Settle 2 Fulfilled])
              "harpsichord" 1%nat Hunknown) as (Hget & _ & Hrun).
  destruct (Hrun Hwf eq_refl) as (_ & _ & Hid & _).
  split; [exact Hget | exact Hid].
Defined.

(** C8 (as stated, refuted): the piano is active and the strings are
    loading; a note played meanwhile is started on the piano. *)
Lemma playNote_while_loading_is_played :
  let s := run init [Enable; Settle 0 Fulfilled; Settle 2 Fulfilled] in
  let s1 := step s (SetInstrument "strings") in
  isLoading s1 = true /\
  pending 3 s1 = Some (SwitchLoading "strings" (newSampler "strings" 3)) /\
  instrumentRef s1 = Some (Sampled (newSampler "grand-piano" 2)) /\
  calls s1 = [] /\
  calls (step s1 (PlayNote 60 100 true)) = [Start 2 60 100 4].
Proof. vm_compute. repeat split. Qed.

Lemma noteEvents_frame (s : State) (es : list Event) :
  Forall (fun e => isNoteEvent e = true) es ->
  isLoading (run s es) = isLoading s /\
  tasks (run s es) = tasks s /\
  instrumentRef (run s es) = instrumentRef s.
Proof.
  intros Hes. revert s.
  induction Hes as [| e es He _ IH]; intros s; [auto |].
  rewrite run_cons.
  destruct (IH (step s e)) as (Hl & Ht & Hi). rewrite Hl, Ht, Hi.
  destruct e; try discriminate He; cbn [step].
  - unfold playNote.
    destruct (instrumentRef s) as [[i | p] |] eqn:H; simpl; rewrite ?H; auto.
  - unfold stopNote.
    destruct (instrumentRef s) as [[i | p] |] eqn:H; simpl; rewrite ?H; auto.
    destruct (activeNotesRef s !! midiNote) as [[v |] |]; simpl; rewrite ?H; auto.
Qed.

(** C8 (amended): a call of [setInstrument] made once the audio context
    exists first calls [releaseAll] on the outgoing backend when that
    backend is a synthesizer. When the new instrument is a sampled one,
    then from the call on and through any sequence of note events (calls
    of [playNote] and [stopNote]; no load settles and no other function
    of the hook is called meanwhile) [isLoading] is true, the load is
    pending and the outgoing backend stays installed: a note played then
    is played on the outgoing backend (and dropped only if no backend is
    installed); it is not queued, for when the load succeeds after these
    events the new backend is installed and [isLoading] cleared without a
    call on any backend. *)
Theorem setInstrument_while_loading (s : State) (instrumentId : string) (context : nat) :
  wf s ->
  audioContextRef s = Some context ->
  let s1 := setInstrument instrumentId s in
  (forall p, instrumentRef s = Some (Synth p) ->
     calls s1 = (calls s ++ [ReleaseAll (synth_oid p)])%list) /\
  (type (getInstrument instrumentId) = sampled ->
   forall es : list Event,
     Forall (fun e => isNoteEvent e = true) es ->
     let s2 := run s1 es in
     isLoading s2 = true /\
     pending (fresh s) s2 =
       Some (SwitchLoading instrumentId (newSampler instrumentId (fresh s))) /\
     instrumentRef s2 = instrumentRef s /\
     (forall (midiNote : Z) (velocity : Q) (returnsStop : bool),
        let s3 := playNote midiNote velocity returnsStop s2 in
        isLoading s3 = true /\
        tasks s3 = tasks s1 /\
        (forall p, instrumentRef s = Some (Synth p) ->
           calls s3 = (calls s2 ++ [TriggerAttack (synth_oid p) midiNote
                                      (normalizedVelocity velocity)])%list) /\
        (forall i, instrumentRef s = Some (Sampled i) ->
           calls s3 = (calls s2 ++ [Start (sampler_oid i) midiNote
                                      (midiVelocity velocity) (fresh s2)])%list) /\
        (instrumentRef s = None -> s3 = s2) /\
        calls (step s3 (Settle (fresh s) Fulfilled)) = calls s3) /\
     let s4 := step s2 (Settle (fresh s) Fulfilled) in
     calls s4 = calls s2 /\
     instrumentRef s4 = Some (Sampled (newSampler instrumentId (fresh s))) /\
     isLoading s4 = false).
Proof.
  intros Hwf Hctx s1. split.
  - intros p Hp. subst s1. unfold setInstrument, releaseAllIfPresent.
    rewrite Hctx. simpl. rewrite Hp.
    destruct (type (getInstrument instrumentId)); reflexivity.
  - intros Htype es Hes s2.
    destruct (setInstrument_sampled s instrumentId context Hctx Htype)
      as (Ht & Hf & Hl & Hi & _ & _ & _ & _).
    destruct (wf_setInstrument_sampled s instrumentId context Hwf Hctx Htype) as [Hn _].
    fold s1 in Ht, Hf, Hl, Hi.
    destruct (noteEvents_frame s1 es Hes) as (Hl2 & Ht2 & Hi2).
    fold s2 in Hl2, Ht2, Hi2.
    rewrite Hl in Hl2. rewrite Hi in Hi2.
    assert (Hsettle : forall s' : State,
               tasks s' = tasks s1 ->
               step s' (Settle (fresh s) Fulfilled) =
               resume (SwitchLoading instrumentId (newSampler instrumentId (fresh s)))
                      Fulfilled (setTasks (tasks s ++ []) s')).
    { intros s' Hs'.
      apply (settle_suspended s' (tasks s) [] (fresh s));
        [rewrite Hs', Ht; reflexivity | assumption | apply not_elem_of_nil]. }
    split; [assumption |]. split.
    { unfold pending. rewrite Ht2, Ht, find_token_skip by assumption.
      simpl. rewrite Nat.eqb_refl. reflexivity. }
    split; [assumption |]. split.
    + intros midiNote velocity returnsStop s3.
      assert (Hs3 : isLoading s3 = true /\ tasks s3 = tasks s1).
      { subst s3. unfold playNote.
        destruct (instrumentRef s2) as [[i | p] |] eqn:H2; simpl; rewrite ?H2; auto. }
      destruct Hs3 as (Hl3 & Ht3).
      split; [assumption |]. split; [assumption |].
      split; [| split; [| split]].
      * intros p Hp. subst s3. unfold playNote. rewrite Hi2, Hp. reflexivity.
      * intros i Hp. subst s3. unfold playNote. rewrite Hi2, Hp. reflexivity.
      * intros Hp. subst s3. unfold playNote. rewrite Hi2, Hp. reflexivity.
      * rewrite (Hsettle s3 Ht3). reflexivity.
    + intros s4. subst s4. rewrite (Hsettle s2 Ht2). repeat split.
Qed.

Lemma setInstrument_while_loading_witness :
  let s := run init [Enable; Settle 0 Fulfilled; Settle 2 Fulfilled] in
  let s2 := run (setInstrument "strings" s)
                [PlayNote 60 100 true; StopNote 60; PlayNote 64 90 true] in
  isLoading s2 = true /\ instrumentRef s2 = instrumentRef s.
Proof.
  pose proof (setInstrument_while_loading
                (run init [Enable; Settle 0 Fulfilled; Settle 2 Fulfilled])
                "strings" 1%nat (wf_run _ _ wf_init) eq_refl) as [_ H].
  assert (Hes : Forall (fun e => isNoteEvent e = true)
                       [PlayNote 60 100 true; StopNote 60; PlayNote 64 90 true])
    by (repeat constructor).
  destruct (H eq_refl _ Hes) as (Hl & _ & Hi & _).
  split; [exact Hl | exact Hi].
Defined.

End AudioFacts.

(** ** Repeated note-on *)

Section NoteOnFacts.
Import Js Audio.

Arguments midiVelocity : simpl never.

Lemma liveVoices_elem (note : Z) (cs : list BackendCall) (v : nat) :
  v ∈ liveVoices note cs <-> v ∈ startedVoices note cs /\ v ∉ stoppedVoices cs.
Proof.
  unfold liveVoices.
  rewrite list_elem_of_In, filter_In, <- list_elem_of_In, negb_true_iff,
    bool_decide_eq_false.
  reflexivity.
Qed.

Lemma releasable_elem (s : State) (v : nat) :
  v ∈ releasable s <-> exists k, activeNotesRef s !! k = Some (Some v).
Proof.
  unfold releasable. rewrite list_elem_of_omap. split.
  - intros ([k h] & Hin & Hsnd). simpl in Hsnd. subst h.
    apply elem_of_map_to_list in Hin. eauto.
  - intros [k Hk]. exists (k, Some v). split; [| reflexivity].
    apply elem_of_map_to_list. assumption.
Qed.

Lemma playNote_sampled (s : State) (i : Sampler) (midiNote : Z) (velocity : Q)
      (returnsStop : bool) :
  instrumentRef s = Some (Sampled i) ->
  let s' := playNote midiNote velocity returnsStop s in
  instrumentRef s' = Some (Sampled i) /\
  fresh s' = S (fresh s) /\
  activeNotesRef s' =
    <[midiNote := if returnsStop then Some (fresh s) else None]> (activeNotesRef s) /\
  calls s' = (calls s ++ [Start (sampler_oid i) midiNote (midiVelocity velocity)
                            (fresh s)])%list.
Proof. intros Hi. unfold playNote. rewrite Hi. simpl. auto. Qed.






End NoteOnFacts.

(** * Further properties *)

(** ** Pitch classes and detected chords *)

Section PitchClassFacts.
Import Js ChordDetection.

Lemma getPitchClasses_member (midiNotes : list Z) (p : Z) :
  p ∈ getPitchClasses midiNotes <-> exists m, m ∈ midiNotes /\ p = midiToPitchClass m.
Proof.
  unfold getPitchClasses.
  rewrite sort_ascending_elem, set_of_list_elem, list_elem_of_In, in_map_iff.
  split; intros (m & H1 & H2); exists m; rewrite ?list_elem_of_In in *; auto.
Qed.

(** X1: [getPitchClasses] returns the pitch classes of the notes, each
    once, in strictly ascending order; a pitch class lies between -11
    and 11, and between 0 and 11 when no note is negative. *)
Theorem getPitchClasses_ascending (midiNotes : list Z) :
  StronglySorted Z.lt (getPitchClasses midiNotes) /\
  (forall p, p ∈ getPitchClasses midiNotes <->
             exists m, m ∈ midiNotes /\ p = Z.rem m 12) /\
  (forall p, p ∈ getPitchClasses midiNotes -> -11 <= p <= 11) /\
  (Forall (fun m => 0 <= m) midiNotes ->
   forall p, p ∈ getPitchClasses midiNotes -> 0 <= p <= 11).
Proof.
  split; [| split; [| split]].
  - apply StronglySorted_le_NoDup_lt.
    + apply StronglySorted_merge_sort; apply _.
    + unfold getPitchClasses, sort_ascending.
      rewrite merge_sort_Permutation. apply set_of_list_NoDup.
  - apply getPitchClasses_member.
  - intros p Hp. apply getPitchClasses_member in Hp as (m & _ & ->).
    unfold midiToPitchClass.
    pose proof (Z.rem_bound_abs m 12 ltac:(lia)). lia.
  - intros Hall p Hp. apply getPitchClasses_member in Hp as (m & Hm & ->).
    rewrite Forall_forall in Hall. specialize (Hall m Hm).
    unfold midiToPitchClass. pose proof (Z.rem_bound_pos m 12 Hall). lia.
Qed.

Lemma getPitchClasses_ascending_witness :
  Forall (fun m => 0 <= m) [60; 64; 67; 72] /\
  Forall (fun p => 0 <= p <= 11) (getPitchClasses [60; 64; 67; 72]).
Proof.
  assert (Hall : Forall (fun m => 0 <= m) [60; 64; 67; 72]) by (repeat constructor; lia).
  split; [exact Hall |].
  apply Forall_forall.
  exact (proj2 (proj2 (proj2 (getPitchClasses_ascending [60; 64; 67; 72]))) Hall).
Defined.

Lemma getPitchClasses_ext (l l' : list Z) :
  (forall m, m ∈ l <-> m ∈ l') -> getPitchClasses l = getPitchClasses l'.
Proof.
  intros Hsame. unfold getPitchClasses, sort_ascending.
  apply (StronglySorted_unique Z.le).
  - apply StronglySorted_merge_sort; apply _.
  - apply StronglySorted_merge_sort; apply _.
  - rewrite !merge_sort_Permutation.
    apply NoDup_Permutation; try apply set_of_list_NoDup.
    intros p. rewrite !set_of_list_elem, !list_elem_of_In, !in_map_iff.
    split; intros (m & H1 & H2); exists m; split; try assumption;
      apply list_elem_of_In, Hsame, list_elem_of_In; assumption.
Qed.

(** X2: [getPitchClasses] depends on the notes present only, not on
    their order nor on repetitions: two lists with the same notes have
    the same pitch classes, whose number is at most the number of
    distinct notes. *)
Theorem getPitchClasses_same_notes (l l' : list Z) :
  (forall m, m ∈ l <-> m ∈ l') ->
  getPitchClasses l = getPitchClasses l' /\
  (length (getPitchClasses l) <= length (set_of_list l'))%nat.
Proof.
  intros Hsame. split; [apply getPitchClasses_ext, Hsame |].
  rewrite (getPitchClasses_ext l l' Hsame).
  unfold getPitchClasses. rewrite sort_ascending_length.
  rewrite <- (length_map midiToPitchClass (set_of_list l')).
  apply submseteq_length, NoDup_submseteq; [apply set_of_list_NoDup |].
  intros p Hp. apply set_of_list_elem, list_elem_of_In, in_map_iff in Hp as (m & <- & Hm).
  apply list_elem_of_In, in_map, list_elem_of_In, set_of_list_elem, list_elem_of_In, Hm.
Qed.

Lemma getPitchClasses_same_notes_witness :
  getPitchClasses [67; 60; 64; 60] = getPitchClasses [60; 64; 67].
Proof.
  refine (proj1 (getPitchClasses_same_notes [67; 60; 64; 60] [60; 64; 67] _)). intros m.
  rewrite !elem_of_cons, !elem_of_nil. tauto.
Defined.

End PitchClassFacts.

Section DetectedChordFacts.
Import Js ChordDetection.
Context {T : Tonal}.

Lemma truthy_nonempty (s : string) : truthy s = true <-> s <> "".
Proof. unfold truthy. rewrite negb_true_iff. apply String.eqb_neq. Qed.

Lemma or_else_nonempty (a b : string) : b <> "" -> or_else a b <> "".
Proof.
  intros Hb. unfold or_else. destruct (truthy a) eqn:Ha; [| assumption].
  apply truthy_nonempty, Ha.
Qed.

Lemma noteNamesOf_nonempty (notes : list Z) (n : string) :
  n ∈ noteNamesOf notes -> n <> "".
Proof.
  unfold noteNamesOf. rewrite list_elem_of_In, filter_In.
  intros [_ H]. apply truthy_nonempty, H.
Qed.

Lemma noteNamesOf_length (notes : list Z) :
  (length (noteNamesOf notes) <= length notes)%nat.
Proof.
  unfold noteNamesOf.
  etransitivity; [apply List.filter_length_le | rewrite length_map; reflexivity].
Qed.

(** X3: a chord returned by [detectChord] is resolved by the matcher
    (its chord info is not empty), its symbol is its name, its type and
    quality are those of the resolved chord info, and it lists one
    non-empty label for each named note: two at least, no more than
    there are notes. *)
Theorem detectChord_result_resolved (notes : list Z) (c : DetectedChord) :
  detectChord notes = Some c ->
  symbol c = name c /\
  ci_empty (Chord_get (name c)) = false /\
  type c = ci_type (Chord_get (name c)) /\
  quality c = getChordQuality (or_else (ci_quality (Chord_get (name c)))
                                       (ci_type (Chord_get (name c)))) /\
  length (ChordDetection.notes c) = length (noteNamesOf notes) /\
  (2 <= length (ChordDetection.notes c) <= length notes)%nat /\
  Forall (fun label => label <> "") (ChordDetection.notes c).
Proof.
  unfold detectChord.
  destruct (length notes <? 2)%nat; [discriminate |].
  destruct (Nat.ltb_spec (length (noteNamesOf notes)) 2) as [| Hlen]; [discriminate |].
  pose proof (noteNamesOf_length notes) as Hle.
  assert (Hlabels : Forall (fun label => label <> "")
                      (map (fun n => or_else (Note_pitchClass n) n) (noteNamesOf notes))).
  { rewrite Forall_forall. intros label Hin.
    apply list_elem_of_In, in_map_iff in Hin as (n & <- & Hn).
    apply or_else_nonempty. apply (noteNamesOf_nonempty notes).
    apply list_elem_of_In, Hn. }
  destruct (Chord_detect (noteNamesOf notes)) as [| first rest].
  - destruct (Chord_detect (pitchClassNotesOf notes)) as [| first rest]; [discriminate |].
    destruct (ci_empty (Chord_get first)) eqn:He; [discriminate |].
    intros [= <-]. simpl. rewrite length_map. repeat split; auto; lia.
  - destruct (ci_empty (Chord_get first)) eqn:He; [discriminate |].
    intros [= <-]. simpl. rewrite length_map. repeat split; auto; lia.
Qed.

(** X4: the labels of a returned chord are the key labels
    [getNoteName(note)] of the notes, in the order of the notes, as soon
    as each note has a name with a pitch class. *)
Theorem detectChord_labels_are_note_names (notes : list Z) (c : DetectedChord) :
  Forall (fun m => midiToNote m <> "" /\ Note_pitchClass (midiToNote m) <> "") notes ->
  detectChord notes = Some c ->
  ChordDetection.notes c = map (fun m => getNoteName m false) notes.
Proof.
  intros Hnamed.
  assert (Hnames : noteNamesOf notes = map midiToNote notes).
  { unfold noteNamesOf. induction Hnamed as [| m l [Hm _] _ IH]; simpl; [reflexivity |].
    rewrite (proj2 (truthy_nonempty _) Hm), IH. reflexivity. }
  assert (Hlabels : map (fun n => or_else (Note_pitchClass n) n) (noteNamesOf notes) =
                    map (fun m => getNoteName m false) notes).
  { rewrite Hnames, map_map. apply map_ext_Forall.
    rewrite Forall_forall in *. intros m Hm. destruct (Hnamed m Hm) as [H1 H2].
    unfold getNoteName, or_else.
    rewrite (proj2 (truthy_nonempty _) H1), (proj2 (truthy_nonempty _) H2). reflexivity. }
  unfold detectChord.
  destruct (length notes <? 2)%nat; [discriminate |].
  destruct (length (noteNamesOf notes) <? 2)%nat; [discriminate |].
  destruct (Chord_detect (noteNamesOf notes)) as [| first rest].
  - destruct (Chord_detect (pitchClassNotesOf notes)) as [| first rest]; [discriminate |].
    destruct (ci_empty (Chord_get first)); [discriminate |].
    intros [= <-]. exact Hlabels.
  - destruct (ci_empty (Chord_get first)); [discriminate |].
    intros [= <-]. exact Hlabels.
Qed.

Lemma noteNamesOf_Permutation (notes notes' : list Z) :
  notes ≡ₚ notes' -> noteNamesOf notes ≡ₚ noteNamesOf notes'.
Proof.
  unfold noteNamesOf. induction 1 as [| x l l' _ IH | x y l | l l' l'' _ IH1 _ IH2]; simpl.
  - reflexivity.
  - destruct (truthy (midiToNote x)); [constructor |]; assumption.
  - destruct (truthy (midiToNote x)), (truthy (midiToNote y));
      try reflexivity. constructor.
  - etransitivity; eassumption.
Qed.

(** X5: the second attempt does not depend on the order in which the
    notes were pressed: for two orders of the same notes at which the
    octave-aware attempt gives no candidate, [detectChord] gives none for
    both, or chords with the same name, root, type and quality, whose
    labels are the same up to their order. *)
Theorem detectChord_fallback_order_independent (notes notes' : list Z) :
  notes ≡ₚ notes' ->
  Chord_detect (noteNamesOf notes) = [] ->
  Chord_detect (noteNamesOf notes') = [] ->
  match detectChord notes, detectChord notes' with
  | Some c, Some c' =>
      name c = name c' /\ symbol c = symbol c' /\ root c = root c' /\
      type c = type c' /\ quality c = quality c' /\
      ChordDetection.notes c ≡ₚ ChordDetection.notes c'
  | None, None => True
  | _, _ => False
  end.
Proof.
  intros Hperm Hnone Hnone'.
  pose proof (noteNamesOf_Permutation notes notes' Hperm) as Hnames.
  assert (Hpcs : pitchClassNotesOf notes = pitchClassNotesOf notes').
  { unfold pitchClassNotesOf. f_equal. apply getPitchClasses_ext.
    intros m. rewrite Hperm. reflexivity. }
  unfold detectChord.
  rewrite <- (Permutation_length Hperm), <- (Permutation_length Hnames).
  rewrite Hnone, Hnone', <- Hpcs.
  destruct (length notes <? 2)%nat; [exact I |].
  destruct (length (noteNamesOf notes) <? 2)%nat; [exact I |].
  destruct (Chord_detect (pitchClassNotesOf notes)) as [| first rest]; [exact I |].
  destruct (ci_empty (Chord_get first)); [exact I |].
  simpl. repeat split. apply Permutation_map, Hnames.
Qed.

End DetectedChordFacts.

Section DetectedChordWitnesses.
Import Js ChordDetection.

Lemma detectChord_result_resolved_witness :
  exists c, @detectChord (LookupMatcher.tonal true) [64; 67; 72] = Some c /\
            symbol c = "CM/E" /\ ChordDetection.notes c = ["E"; "G"; "C"].
Proof.
  eexists. split; [vm_compute; reflexivity |].
  pose proof (@detectChord_result_resolved (LookupMatcher.tonal true) [64; 67; 72] _ eq_refl)
    as (Hsym & _).
  split; [exact Hsym | reflexivity].
Defined.

Lemma detectChord_labels_are_note_names_witness :
  exists c, @detectChord (LookupMatcher.tonal true) [64; 67; 72] = Some c /\
            ChordDetection.notes c =
              map (fun m => @getNoteName (LookupMatcher.tonal true) m false) [64; 67; 72].
Proof.
  eexists. split; [vm_compute; reflexivity |].
  apply (@detectChord_labels_are_note_names (LookupMatcher.tonal true) [64; 67; 72]).
  - repeat constructor; discriminate.
  - reflexivity.
Defined.

Lemma detectChord_fallback_order_independent_witness :
  exists c c',
    @detectChord LookupMatcher.tonalPitchClassNames [64; 67; 72] = Some c /\
    @detectChord LookupMatcher.tonalPitchClassNames [72; 64; 67] = Some c' /\
    name c = name c' /\ name c = "CM".
Proof.
  pose proof (@detectChord_fallback_order_independent LookupMatcher.tonalPitchClassNames
                [64; 67; 72] [72; 64; 67]) as H.
  assert (Hperm : [64; 67; 72] ≡ₚ [72; 64; 67]).
  { apply NoDup_Permutation.
    - repeat (apply NoDup_cons; split; [rewrite ?elem_of_cons, elem_of_nil; lia |]).
      apply NoDup_nil_2.
    - repeat (apply NoDup_cons; split; [rewrite ?elem_of_cons, elem_of_nil; lia |]).
      apply NoDup_nil_2.
    - intros x. rewrite !elem_of_cons, !elem_of_nil. tauto. }
  specialize (H Hperm eq_refl eq_refl).
  destruct (@detectChord LookupMatcher.tonalPitchClassNames [64; 67; 72]) as [c |] eqn:Hc;
    [| vm_compute in Hc; discriminate].
  destruct (@detectChord LookupMatcher.tonalPitchClassNames [72; 64; 67]) as [c' |] eqn:Hc';
    [| contradiction].
  exists c, c'. destruct H as (Hname & _).
  repeat split; try assumption.
  vm_compute in Hc. injection Hc as <-. reflexivity.
Defined.

End DetectedChordWitnesses.

(** ** The keyboard *)

Section KeyboardFacts.
Import ChordDetection Piano2D.

(** X6: a key is black exactly when its note is not negative and its
    pitch class is one of 1, 3, 6, 8 and 10; a negative note is never a
    black key, and from 0 on the colour repeats every octave. *)
Theorem isBlackKey_pitch_class (midiNote : Z) :
  (isBlackKey midiNote = true <->
   0 <= midiNote /\
   (midiNote mod 12 = 1 \/ midiNote mod 12 = 3 \/ midiNote mod 12 = 6 \/
    midiNote mod 12 = 8 \/ midiNote mod 12 = 10)) /\
  (0 <= midiNote -> isBlackKey (midiNote + 12) = isBlackKey midiNote).
Proof.
  assert (Hnonneg : forall n, 0 <= n ->
            isBlackKey n = existsb (Z.eqb (n mod 12)) [1; 3; 6; 8; 10]).
  { intros n Hn. unfold isBlackKey. rewrite Z.rem_mod_nonneg by lia. reflexivity. }
  split.
  - destruct (Z.le_gt_cases 0 midiNote) as [Hpos | Hneg].
    + rewrite Hnonneg by assumption. simpl.
      rewrite !orb_true_iff, !Z.eqb_eq. split; [intros H; split; [assumption |] |]; intuition lia.
    + unfold isBlackKey. simpl.
      pose proof (Z.rem_nonpos midiNote 12 ltac:(lia) ltac:(lia)).
      rewrite !orb_true_iff, !Z.eqb_eq. split; [| lia]. intros H'. exfalso. intuition lia.
  - intros Hpos. rewrite !Hnonneg by lia.
    replace ((midiNote + 12) mod 12) with (midiNote mod 12); [reflexivity |].
    replace (midiNote + 12) with (midiNote + 1 * 12) by lia.
    rewrite Z.mod_add by lia. reflexivity.
Qed.

Lemma isBlackKey_pitch_class_witness :
  isBlackKey (61 + 12) = isBlackKey 61 /\ isBlackKey 61 = true.
Proof.
  split; [| reflexivity].
  apply (proj2 (isBlackKey_pitch_class 61)). lia.
Defined.

Lemma keysFrom_midiNote (notes : list Z) (counter : Z) :
  map midiNote (keysFrom notes counter) = notes.
Proof.
  revert counter. induction notes as [| n rest IH]; intros counter; simpl;
    [reflexivity | rewrite IH; reflexivity].
Qed.

Lemma keysFrom_isBlack (notes : list Z) (counter : Z) :
  Forall (fun k => isBlack k = isBlackKey (midiNote k)) (keysFrom notes counter).
Proof.
  revert counter. induction notes as [| n rest IH]; intros counter; simpl;
    constructor; [reflexivity | apply IH].
Qed.

Lemma keysFrom_white_indices (notes : list Z) (counter : Z) :
  map whiteKeyIndex (whiteKeys (keysFrom notes counter)) =
  seqZ counter (Z.of_nat (length (whiteKeys (keysFrom notes counter)))).
Proof.
  revert counter. induction notes as [| n rest IH]; intros counter; simpl; [reflexivity |].
  destruct (isBlackKey n); simpl; [apply IH |].
  rewrite IH. rewrite (seqZ_cons counter) by lia.
  f_equal. f_equal. lia.
Qed.

Lemma keysFrom_black_index (notes : list Z) (counter : Z) (pre post : list Key) (k : Key) :
  keysFrom notes counter = (pre ++ k :: post)%list ->
  isBlack k = true ->
  whiteKeyIndex k = counter + Z.of_nat (length (whiteKeys pre)) - 1.
Proof.
  revert counter pre. induction notes as [| n rest IH]; intros counter pre Hks Hblack.
  - destruct pre; discriminate.
  - simpl in Hks. destruct pre as [| p pre'].
    + injection Hks as <- _. cbn in Hblack. cbn. rewrite Hblack. lia.
    + injection Hks as <- Hrest. apply IH in Hrest; [| assumption].
      rewrite Hrest. unfold whiteKeys. cbn [List.filter isBlack].
      destruct (isBlackKey n); cbn [negb length]; lia.
Qed.

Lemma keysFrom_app (l1 l2 : list Z) (counter : Z) :
  keysFrom (l1 ++ l2) counter =
  (keysFrom l1 counter ++
   keysFrom l2 (counter + Z.of_nat (length (whiteKeys (keysFrom l1 counter)))))%list.
Proof.
  revert counter. induction l1 as [| n rest IH]; intros counter.
  - simpl. f_equal. lia.
  - cbn [keysFrom app]. rewrite IH. unfold whiteKeys. cbn [List.filter isBlack].
    destruct (isBlackKey n); cbn [negb length]; [reflexivity |].
    do 3 f_equal. lia.
Qed.

(** X7: the keys of a keyboard are those of the notes from the first to
    the last, each with the colour of its note; the white keys are
    numbered 0, 1, 2, ... from the left, so that a white key's index is
    its position among the white keys, and a black key bears the index of
    the white key just before it (one less than the number of white keys
    before it). *)
Theorem keys_layout (first last : Z) :
  let ks := keys first last in
  map midiNote ks = seqZ first (last - first + 1) /\
  Forall (fun k => isBlack k = isBlackKey (midiNote k)) ks /\
  map whiteKeyIndex (whiteKeys ks) = seqZ 0 (totalWhiteKeys ks) /\
  (forall pre k post,
     ks = (pre ++ k :: post)%list -> isBlack k = true ->
     whiteKeyIndex k = Z.of_nat (length (whiteKeys pre)) - 1).
Proof.
  unfold keys, totalWhiteKeys. simpl.
  split; [apply keysFrom_midiNote |].
  split; [apply keysFrom_isBlack |].
  split; [apply keysFrom_white_indices |].
  intros pre k post Hks Hblack.
  rewrite (keysFrom_black_index _ _ _ _ _ Hks Hblack). lia.
Qed.

Lemma keys_layout_witness :
  let c2 := {| midiNote := 36; isBlack := false; whiteKeyIndex := 0 |} in
  let cs2 := {| midiNote := 37; isBlack := true; whiteKeyIndex := 0 |} in
  keys 36 84 = ([c2] ++ cs2 :: drop 2 (keys 36 84))%list /\
  whiteKeyIndex cs2 = Z.of_nat (length (whiteKeys [c2])) - 1.
Proof.
  intros c2 cs2.
  assert (Hks : keys 36 84 = ([c2] ++ cs2 :: drop 2 (keys 36 84))%list) by reflexivity.
  split; [exact Hks |].
  exact (proj2 (proj2 (proj2 (keys_layout 36 84))) [c2] cs2 _ Hks eq_refl).
Defined.

Lemma blackKey_geometry (index total : Z) :
  0 <= index <= total - 2 ->
  (0 <= blackLeft index total)%Q /\
  (blackLeft index total + blackWidth total <= 100)%Q /\
  (blackLeft index total < whiteLeft (index + 1) total)%Q /\
  (whiteLeft (index + 1) total < blackLeft index total + blackWidth total)%Q.
Proof.
  intros [Hlo Hhi].
  destruct total as [| t | t]; try lia.
  unfold blackLeft, blackWidth, whiteLeft, keyWidth, Qdiv, Qinv, inject_Z,
    Qle, Qlt, Qplus, Qminus, Qopp, Qmult. simpl.
  repeat split; nia.
Qed.

(** X8: on a keyboard whose first and last keys are white, every black
    key lies between two white keys: its index is that of a white key
    other than the last one, and the key is drawn inside the keyboard
    (between 0% and 100%), over the border between the white key of its
    index and the next one. *)
Theorem blackKeys_between_white_keys (first last : Z) (k : Key) :
  isBlackKey first = false ->
  isBlackKey last = false ->
  k ∈ blackKeys (keys first last) ->
  let total := totalWhiteKeys (keys first last) in
  0 <= whiteKeyIndex k <= total - 2 /\
  (0 <= blackLeft (whiteKeyIndex k) total)%Q /\
  (blackLeft (whiteKeyIndex k) total + blackWidth total <= 100)%Q /\
  (blackLeft (whiteKeyIndex k) total < whiteLeft (whiteKeyIndex k + 1) total)%Q /\
  (whiteLeft (whiteKeyIndex k + 1) total <
   blackLeft (whiteKeyIndex k) total + blackWidth total)%Q.
Proof.
  intros Hfirst Hlast Hk total.
  assert (Hidx : 0 <= whiteKeyIndex k <= total - 2);
    [| split; [exact Hidx | apply blackKey_geometry, Hidx]].
  subst total. unfold blackKeys, totalWhiteKeys in *.
  apply list_elem_of_In, filter_In in Hk as [Hk Hblack].
  apply list_elem_of_In in Hk. unfold keys in *.
  destruct (Z.lt_trichotomy first last) as [Hlt | [-> | Hgt]].
  - assert (Hnotes : seqZ first (last - first + 1) =
                     (first :: seqZ (first + 1) (last - first - 1) ++ [last])%list).
    { rewrite seqZ_cons by lia. f_equal.
      replace (Z.succ first) with (first + 1) by lia.
      replace (Z.pred (last - first + 1)) with ((last - first - 1) + 1) by lia.
      rewrite seqZ_app by lia.
      replace (first + 1 + (last - first - 1)) with last by lia. reflexivity. }
    rewrite Hnotes in *. simpl in Hk |- *. rewrite Hfirst in *. simpl in Hk |- *.
    rewrite keysFrom_app in *. simpl in Hk |- *. rewrite Hlast in *.
    set (mid := keysFrom (seqZ (first + 1) (last - first - 1)) (0 + 1)) in *.
    unfold whiteKeys in *. rewrite List.filter_app, length_app. simpl.
    apply elem_of_cons in Hk as [-> | Hk]; [discriminate |].
    apply elem_of_app in Hk as [Hk | Hk].
    + apply list_elem_of_split in Hk as (pre & post & Hmid).
      rewrite (keysFrom_black_index _ _ _ _ _ Hmid Hblack).
      fold mid. rewrite Hmid. unfold whiteKeys.
      rewrite List.filter_app, length_app. lia.
    + apply list_elem_of_singleton in Hk. subst k. discriminate.
  - rewrite Z.sub_diag in Hk. simpl in Hk.
    apply list_elem_of_singleton in Hk. subst k. simpl in Hblack.
    change (Z.of_nat 0 + last) with last in Hblack. congruence.
  - rewrite seqZ_nil in Hk by lia. apply elem_of_nil in Hk. contradiction.
Qed.

Lemma blackKeys_between_white_keys_witness :
  let ks := keys (kr_start getKeyRange) (kr_end getKeyRange) in
  Z.of_nat (length ks) = kr_count getKeyRange /\
  totalWhiteKeys ks = 29 /\
  forall k, k ∈ blackKeys ks -> 0 <= whiteKeyIndex k <= 27.
Proof.
  split; [reflexivity |]. split; [reflexivity |].
  intros k Hk.
  exact (proj1 (blackKeys_between_white_keys 36 84 k eq_refl eq_refl Hk)).
Defined.

End KeyboardFacts.

(** ** Chord quality and letter case *)

Section QualityCaseFacts.
Import Js ChordDetection.

Lemma prefix_app (sub post : string) : String.prefix sub (sub ++ post) = true.
Proof.
  induction sub as [| c sub IH]; simpl; [destruct post; reflexivity |].
  destruct (ascii_dec c c); [exact IH | congruence].
Qed.

Lemma prefix_inv (sub t : string) :
  String.prefix sub t = true -> exists post, t = sub ++ post.
Proof.
  revert t. induction sub as [| c sub IH]; intros t H.
  - exists t. reflexivity.
  - destruct t as [| d t]; simpl in H; [discriminate |].
    destruct (ascii_dec c d) as [-> |]; [| discriminate].
    destruct (IH t H) as [post ->]. exists post. reflexivity.
Qed.

(** [includes] is containment as a contiguous substring. *)
Lemma includes_spec (t sub : string) :
  includes t sub = true <-> exists pre post, t = pre ++ sub ++ post.
Proof.
  split.
  - induction t as [| c t IH]; cbn [includes]; rewrite orb_true_iff.
    + intros [H | H]; [| discriminate].
      destruct (prefix_inv _ _ H) as [post ->]. exists "", post. reflexivity.
    + intros [H | H].
      * destruct (prefix_inv _ _ H) as [post Hpost]. exists "", post. exact Hpost.
      * destruct (IH H) as (pre & post & ->). exists (String c pre), post. reflexivity.
  - intros (pre & post & ->). induction pre as [| c pre IH].
    + change ("" ++ sub ++ post) with (sub ++ post).
      destruct (sub ++ post) eqn:E; cbn [includes]; rewrite <- E, prefix_app; reflexivity.
    + change (String c pre ++ sub ++ post) with (String c (pre ++ sub ++ post)).
      cbn [includes]. rewrite IH. apply orb_true_r.
Qed.

Lemma toLowerCase_app (a b : string) :
  toLowerCase (a ++ b) = toLowerCase a ++ toLowerCase b.
Proof. induction a as [| c a IH]; simpl; [| rewrite IH]; reflexivity. Qed.

Lemma lower_ascii_idempotent (c : ascii) : lower_ascii (lower_ascii c) = lower_ascii c.
Proof. destruct c as [[] [] [] [] [] [] [] []]; reflexivity. Qed.

Lemma toLowerCase_idempotent (s : string) : toLowerCase (toLowerCase s) = toLowerCase s.
Proof.
  induction s as [| c s IH]; simpl; [| rewrite lower_ascii_idempotent, IH]; reflexivity.
Qed.

(** X9: the quality does not depend on the letter case of the tag, and
    every tag that contains [maj] in any letter case ([Maj7], [CMAJ9],
    ...) is classified major, whatever else it contains. *)
Theorem getChordQuality_ignores_case :
  (forall tag, getChordQuality (toLowerCase tag) = getChordQuality tag) /\
  (forall pre mid post,
     toLowerCase mid = "maj" -> getChordQuality (pre ++ mid ++ post) = major).
Proof.
  split.
  - intros tag. unfold getChordQuality. rewrite toLowerCase_idempotent. reflexivity.
  - intros pre mid post Hmid. unfold getChordQuality.
    rewrite !toLowerCase_app, Hmid.
    rewrite (proj2 (includes_spec _ "maj")) by eauto. reflexivity.
Qed.

Lemma getChordQuality_ignores_case_witness : getChordQuality "CMAJ9" = major.
Proof.
  apply (proj2 getChordQuality_ignores_case "C" "MAJ" "9"). reflexivity.
Defined.

End QualityCaseFacts.

(** ** The catalog and the dock *)

Section CatalogFacts.
Import Instruments InstrumentDock Audio.

Arguments createSynth : simpl never.

Lemma getInstrument_in_catalog (id' : string) : getInstrument id' ∈ instruments.
Proof.
  unfold getInstrument.
  destruct (List.find _ instruments) as [i |] eqn:Hfind.
  - apply find_some in Hfind as [Hin _]. apply list_elem_of_In, Hin.
  - left.
Qed.

(** X10: the ids of the catalog are pairwise different;
    [getInstrument] always answers with an entry of the catalog, gives
    back each entry for its own id, and answers with an entry of the id
    asked for exactly when that id is in the catalog. *)
Theorem getInstrument_catalog :
  NoDup (map id instruments) /\
  (forall id', getInstrument id' ∈ instruments) /\
  (forall i, i ∈ instruments -> getInstrument (id i) = i) /\
  (forall id', id (getInstrument id') = id' <-> id' ∈ map id instruments).
Proof.
  split; [| split; [| split]].
  - simpl. repeat (apply NoDup_cons; split;
                     [rewrite ?elem_of_cons, elem_of_nil; intuition discriminate |]).
    apply NoDup_nil_2.
  - apply getInstrument_in_catalog.
  - intros i Hi. unfold instruments in Hi.
    repeat (apply elem_of_cons in Hi as [-> | Hi]; [reflexivity |]).
    apply elem_of_nil in Hi. contradiction.
  - intros id'. split.
    + intros <-. apply list_elem_of_In, in_map, list_elem_of_In, getInstrument_in_catalog.
    + unfold getInstrument. intros Hin.
      destruct (List.find _ instruments) as [i |] eqn:Hfind.
      * apply find_some in Hfind as [_ Heq]. apply String.eqb_eq, Heq.
      * exfalso. apply list_elem_of_In, in_map_iff in Hin as (i & Hid & Hi).
        apply (find_none _ _ Hfind) in Hi. rewrite Hid, String.eqb_refl in Hi. discriminate.
Qed.

Lemma getInstrument_catalog_witness :
  getInstrument "synth-pad" =
    {| id := "synth-pad"; name := "Synth Pad"; type := synth; icon := "🌊" |}.
Proof.
  apply (proj1 (proj2 (proj2 getInstrument_catalog))
           {| id := "synth-pad"; name := "Synth Pad"; type := synth; icon := "🌊" |}).
  unfold instruments. rewrite !elem_of_cons. auto 10.
Defined.

(** X11: [setInstrument] takes its synthesizer branch only for the three
    synthesizer ids of the catalog, so that the id it hands to
    [createSynth] is one of the types [createSynth] knows; the switch is
    then done within the call: the new synthesizer is installed, the
    current instrument id is the id asked for, which is the id of the
    descriptor found, nothing is left loading and no call is suspended. *)
Theorem setInstrument_synth (s : State) (instrumentId : string) (context : nat) :
  audioContextRef s = Some context ->
  type (getInstrument instrumentId) = synth ->
  let s' := setInstrument instrumentId s in
  (instrumentId = "organ" \/ instrumentId = "synth-pad" \/ instrumentId = "synth-lead") /\
  id (getInstrument instrumentId) = instrumentId /\
  instrumentRef s' = Some (Synth (createSynth instrumentId (fresh s))) /\
  currentInstrumentId s' = instrumentId /\
  isLoading s' = false /\
  tasks s' = tasks s.
Proof.
  intros Hctx Htype s'.
  assert (Hid : id (getInstrument instrumentId) = instrumentId).
  { unfold getInstrument in *.
    destruct (List.find _ instruments) as [i |] eqn:Hfind.
    - apply find_some in Hfind as [_ Heq]. apply String.eqb_eq, Heq.
    - discriminate. }
  split.
  { pose proof (getInstrument_in_catalog instrumentId) as Hin.
    unfold instruments in Hin. rewrite <- Hid.
    repeat (apply elem_of_cons in Hin as [Heq | Hin];
            [rewrite Heq in *; first [discriminate | simpl; auto] |]).
    apply elem_of_nil in Hin. contradiction. }
  split; [exact Hid |].
  subst s'. unfold setInstrument, releaseAllIfPresent. rewrite Hctx, Htype. simpl.
  destruct (instrumentRef s) as [[i | p] |]; simpl; auto.
Qed.

Lemma setInstrument_synth_witness :
  let s := run init [Enable; Settle 0 Fulfilled; Settle 2 Fulfilled] in
  currentInstrumentId (setInstrument "synth-lead" s) = "synth-lead" /\
  isLoading (setInstrument "synth-lead" s) = false.
Proof.
  destruct (setInstrument_synth
              (run init [Enable; Settle 0 Fulfilled; Settle 2 Fulfilled])
              "synth-lead" 1%nat eq_refl eq_refl) as (_ & _ & _ & Hid & Hl & _).
  split; [exact Hid | exact Hl].
Defined.

(** X12: from every highlighted index the dock can hold (-1 when the
    current id is not in the catalog, else a position of the catalog),
    the left and right arrows lead to a position of the catalog, whose
    instrument id is the one asked of [setInstrument]; this id is in the
    catalog, so that [getInstrument] finds its own entry. On the
    positions of the catalog the two arrows undo each other. *)
Theorem arrows_stay_in_catalog (prev : Z) :
  -1 <= prev < Z.of_nat (length instruments) ->
  (forall next, next = arrowLeft prev \/ next = arrowRight prev ->
     0 <= next < Z.of_nat (length instruments) /\
     exists instrumentId,
       idAt next = Some instrumentId /\
       instrumentId ∈ map id instruments /\
       id (getInstrument instrumentId) = instrumentId /\
       findIndex instrumentId = next) /\
  (0 <= prev -> arrowLeft (arrowRight prev) = prev /\ arrowRight (arrowLeft prev) = prev).
Proof.
  intros Hprev. simpl in Hprev.
  assert (Hcases : prev = -1 \/ prev = 0 \/ prev = 1 \/ prev = 2 \/ prev = 3 \/
                   prev = 4 \/ prev = 5) by lia.
  split.
  - intros next Hnext.
    assert (Hrange : next = 0 \/ next = 1 \/ next = 2 \/ next = 3 \/ next = 4 \/ next = 5).
    { destruct Hnext as [-> | ->];
        repeat (destruct Hcases as [-> | Hcases]; [vm_compute; auto 10 |]);
        subst prev; vm_compute; auto 10. }
    repeat (destruct Hrange as [-> | Hrange];
            [split; [simpl; lia |]; eexists; split; [reflexivity |];
             split; [simpl; rewrite !elem_of_cons; auto 10 | split; reflexivity] |]).
    subst next. split; [simpl; lia |]. eexists. split; [reflexivity |].
    split; [simpl; rewrite !elem_of_cons; auto 10 | split; reflexivity].
  - intros H0.
    repeat (destruct Hcases as [-> | Hcases]; [first [lia | split; reflexivity] |]).
    subst prev. split; reflexivity.
Qed.

Lemma arrows_stay_in_catalog_witness :
  0 <= arrowLeft (findIndex "harpsichord") < 6 /\
  idAt (arrowLeft (findIndex "harpsichord")) = Some "synth-lead".
Proof.
  destruct (arrows_stay_in_catalog (findIndex "harpsichord")) as [H _];
    [vm_compute; split; [discriminate | reflexivity] |].
  destruct (H (arrowLeft (findIndex "harpsichord")) (or_introl eq_refl)) as [Hrange _].
  split; [exact Hrange | reflexivity].
Defined.

End CatalogFacts.

(** ** The registry of active notes *)

Section RegistryFacts.
Import Js Midi.

Lemma set_delete_NoDup (x : Z) (s : list Z) : NoDup s -> NoDup (set_delete x s).
Proof.
  unfold set_delete. rewrite !NoDup_ListNoDup. apply List.NoDup_filter.
Qed.

Lemma set_delete_absent (x : Z) (s : list Z) : x ∉ s -> set_delete x s = s.
Proof.
  unfold set_delete. induction s as [| y s IH]; intros Hx; simpl; [reflexivity |].
  apply not_elem_of_cons in Hx as [Hne Hx].
  destruct (Z.eqb_spec y x); [congruence |]. simpl. rewrite IH by assumption. reflexivity.
Qed.

Lemma registryStep_NoDup (s : list Z) (e : RegistryEvent) :
  NoDup s -> NoDup (registryStep s e).
Proof.
  intros Hs. destruct e; simpl.
  - apply set_add_NoDup, Hs.
  - apply set_delete_NoDup, Hs.
  - apply NoDup_nil_2.
  - apply NoDup_nil_2.
Qed.

(** X13: whatever the note messages, input selections and
    disconnections, the registry never holds a note twice. *)
Theorem registry_never_duplicates (s : list Z) (es : list RegistryEvent) :
  NoDup s -> NoDup (registryRun s es).
Proof.
  unfold registryRun. revert s. induction es as [| e es IH]; intros s Hs; simpl;
    [assumption | apply IH, registryStep_NoDup, Hs].
Qed.

Lemma registry_never_duplicates_witness :
  NoDup (registryRun [] [NoteOn 60; NoteOn 64; NoteOn 60; NoteOff 64; NoteOn 64]).
Proof. apply registry_never_duplicates, NoDup_nil_2. Defined.

(** X14: a note is in the registry exactly when the last event that
    concerns it is a note-on for it: it was added by a note-on (or was
    there at the start) and no note-off for it, input selection or
    disconnection came after. *)
Theorem registry_holds_notes_on (s : list Z) (es : list RegistryEvent) (number : Z) :
  number ∈ registryRun s es <-> heldAfter number (bool_decide (number ∈ s)) es = true.
Proof.
  unfold registryRun. revert s. induction es as [| e es IH]; intros s; simpl.
  - rewrite bool_decide_eq_true. reflexivity.
  - rewrite IH. destruct e as [n | n | i |]; simpl.
    + replace (bool_decide (number ∈ handleNoteOn n s))
        with (bool_decide (number ∈ s) || (n =? number)%Z); [reflexivity |].
      apply eq_true_iff_eq.
      rewrite orb_true_iff, !bool_decide_eq_true, Z.eqb_eq.
      unfold handleNoteOn. rewrite set_add_elem. intuition congruence.
    + replace (bool_decide (number ∈ handleNoteOff n s))
        with (bool_decide (number ∈ s) && negb (n =? number)%Z); [reflexivity |].
      apply eq_true_iff_eq.
      rewrite andb_true_iff, negb_true_iff, !bool_decide_eq_true, Z.eqb_neq.
      unfold handleNoteOff. rewrite set_delete_elem. intuition congruence.
    + reflexivity.
    + reflexivity.
Qed.

(** X15: a note-on for a note that is not active puts it last in the
    registry, and the note-off that follows gives back the registry as
    it was; a note-off for a note that is not active changes nothing. *)
Theorem noteOn_noteOff_round_trip (number : Z) (prev : list Z) :
  number ∉ prev ->
  handleNoteOn number prev = (prev ++ [number])%list /\
  handleNoteOff number (handleNoteOn number prev) = prev /\
  handleNoteOff number prev = prev.
Proof.
  intros Hn. unfold handleNoteOn, handleNoteOff.
  assert (Hadd : set_add number prev = (prev ++ [number])%list).
  { unfold set_add. rewrite bool_decide_eq_false_2 by assumption. reflexivity. }
  split; [exact Hadd |]. split; [| apply set_delete_absent, Hn].
  rewrite Hadd. unfold set_delete. rewrite List.filter_app. simpl.
  rewrite Z.eqb_refl. simpl. rewrite app_nil_r.
  apply set_delete_absent, Hn.
Qed.

Lemma noteOn_noteOff_round_trip_witness :
  handleNoteOff 67 (handleNoteOn 67 [60; 64]) = [60; 64].
Proof.
  apply (noteOn_noteOff_round_trip 67 [60; 64]).
  rewrite !not_elem_of_cons. repeat split; try lia. apply not_elem_of_nil.
Defined.

End RegistryFacts.

(** ** Voices and stop handles *)

Section VoiceFacts.
Import Instruments Audio.

Arguments getInstrument : simpl never.
Arguments newSampler : simpl never.
Arguments createSynth : simpl never.
Arguments normalizedVelocity : simpl never.
Arguments midiVelocity : simpl never.
Arguments volumeToDb : simpl never.

Lemma allStarted_snoc (cs : list BackendCall) (c : BackendCall) :
  allStarted (cs ++ [c]) =
  (allStarted cs ++ match c with Start _ _ _ v => [v] | _ => [] end)%list.
Proof. unfold allStarted. rewrite omap_app. destruct c; reflexivity. Qed.

Lemma startedVoices_allStarted (k : Z) (cs : list BackendCall) (v : nat) :
  v ∈ startedVoices k cs -> v ∈ allStarted cs.
Proof.
  unfold startedVoices, allStarted. rewrite !list_elem_of_omap.
  intros (c & Hc & Hv). exists c. split; [assumption |].
  destruct c; try discriminate. destruct (Z.eqb note k); [assumption | discriminate].
Qed.

Lemma handles_ok_init : handles_ok init.
Proof.
  unfold handles_ok, init. simpl.
  split; [| split; [| split; [| split; [| split]]]]; try apply NoDup_nil_2;
    try (intros ? H; apply elem_of_nil in H; contradiction);
    intros; rewrite lookup_empty in *; discriminate.
Qed.

(** A step that starts and stops no voice and stores no handle. *)
Lemma handles_ok_frame (s s' : State) :
  handles_ok s ->
  (fresh s <= fresh s')%nat ->
  (forall k, startedVoices k (calls s') = startedVoices k (calls s)) ->
  allStarted (calls s') = allStarted (calls s) ->
  stoppedVoices (calls s') = stoppedVoices (calls s) ->
  (forall k v, activeNotesRef s' !! k = Some (Some v) ->
               activeNotesRef s !! k = Some (Some v)) ->
  handles_ok s'.
Proof.
  intros (H1 & H2 & H3 & H4 & H5 & H6) Hfresh Hstarted Hall Hstopped Htable.
  unfold handles_ok. rewrite Hall, Hstopped.
  split; [| split; [| split; [| split; [| split]]]]; try assumption.
  - intros k v Hk. rewrite Hstarted. apply (H1 k v), Htable, Hk.
  - intros k k' v Hk Hk'. apply (H2 k k' v); apply Htable; assumption.
  - intros v Hv. apply H3 in Hv. lia.
Qed.

Ltac calls_norm :=
  rewrite ?startedVoices_snoc, ?allStarted_snoc, ?stoppedVoices_snoc;
  simpl; rewrite ?app_nil_r.

Ltac handles_frame H :=
  apply (handles_ok_frame _ _ H); simpl;
  [ lia
  | intros ?; calls_norm; reflexivity
  | calls_norm; reflexivity
  | calls_norm; reflexivity
  | try (intros ? ? Hsame; exact Hsame) ].

Lemma handles_ok_resume (s : State) (t : Task) (o : Outcome) :
  handles_ok s -> handles_ok (resume t o s).
Proof.
  intros H. destruct t, o; simpl;
    unfold enableStarted, enableFailed, enableLoaded, enableFallback,
           switchLoaded, switchFailed; handles_frame H.
Qed.

Lemma handles_ok_step (s : State) (e : Event) : handles_ok s -> handles_ok (step s e).
Proof.
  intros H.
  destruct e as [| instrumentId | midiNote velocity r | midiNote | v | token o]; simpl.
  - unfold enable. destruct (isEnabled s); [assumption |]. handles_frame H.
  - unfold setInstrument, releaseAllIfPresent. simpl.
    destruct (audioContextRef s); [| assumption].
    destruct (type (getInstrument instrumentId)), (instrumentRef s) as [[i | p] |];
      handles_frame H.
  - unfold playNote. destruct (instrumentRef s) as [[i | p] |]; [| | assumption].
    + destruct H as (H1 & H2 & H3 & H4 & H5 & H6).
      assert (Hnew : fresh s ∉ allStarted (calls s))
        by (intros Hin; apply H3 in Hin; lia).
      unfold handles_ok. simpl.
      rewrite allStarted_snoc, stoppedVoices_snoc, app_nil_r. simpl.
      split; [| split; [| split; [| split; [| split]]]].
      * intros k v0 Hk. rewrite startedVoices_snoc.
        apply lookup_insert_Some in Hk as [[<- Hv] | [Hne Hv]].
        -- rewrite Z.eqb_refl. destruct r; [| discriminate]. injection Hv as <-.
           split; [apply elem_of_app; right; left |].
           intros Hin. apply Hnew, H6, Hin.
        -- split; [apply elem_of_app; left; apply (H1 k v0 Hv) | apply (H1 k v0 Hv)].
      * intros k k' v0 Hk Hk'.
        apply lookup_insert_Some in Hk as [[<- Hv] | [Hne Hv]];
          apply lookup_insert_Some in Hk' as [[<- Hv'] | [Hne' Hv']];
          try reflexivity.
        -- destruct r; [| discriminate]. injection Hv as <-.
           exfalso. apply Hnew, (startedVoices_allStarted k'), (H1 k' _ Hv').
        -- destruct r; [| discriminate]. injection Hv' as <-.
           exfalso. apply Hnew, (startedVoices_allStarted k), (H1 k _ Hv).
        -- apply (H2 k k' v0 Hv Hv').
      * intros v0 Hin. apply elem_of_app in Hin as [Hin | Hin].
        -- apply H3 in Hin. lia.
        -- apply list_elem_of_singleton in Hin. lia.
      * apply NoDup_app. repeat split; [assumption | | apply NoDup_singleton].
        intros v0 Hin Hin'. apply list_elem_of_singleton in Hin'. subst v0. contradiction.
      * assumption.
      * intros v0 Hin. apply elem_of_app. left. apply H6, Hin.
    + handles_frame H. intros k v0.
      rewrite lookup_insert_Some. intros [[_ Hv] | [_ Hv]]; [discriminate | assumption].
  - unfold stopNote. destruct (instrumentRef s) as [[i | p] |]; [| | assumption].
    + destruct (activeNotesRef s !! midiNote) as [[stopFn |] |] eqn:Hn.
      * destruct H as (H1 & H2 & H3 & H4 & H5 & H6).
        destruct (H1 _ _ Hn) as [Hstarted Hlive].
        unfold handles_ok. simpl.
        rewrite allStarted_snoc, stoppedVoices_snoc, app_nil_r. simpl.
        split; [| split; [| split; [| split; [| split]]]].
        -- intros k v Hk. rewrite startedVoices_snoc, app_nil_r.
           apply lookup_delete_Some in Hk as [Hne Hv].
           split; [apply (H1 k v Hv) |].
           rewrite elem_of_app, list_elem_of_singleton. intros [Hin | ->].
           ++ apply (H1 k v Hv), Hin.
           ++ apply Hne. apply (H2 midiNote k stopFn Hn Hv).
        -- intros k k' v Hk Hk'.
           apply lookup_delete_Some in Hk as [_ Hk].
           apply lookup_delete_Some in Hk' as [_ Hk'].
           apply (H2 k k' v Hk Hk').
        -- assumption.
        -- assumption.
        -- apply NoDup_app. repeat split; [assumption | | apply NoDup_singleton].
           intros v Hin Hin'. apply list_elem_of_singleton in Hin'. subst v. contradiction.
        -- intros v Hin. apply elem_of_app in Hin as [Hin | Hin]; [apply H6, Hin |].
           apply list_elem_of_singleton in Hin. subst v.
           apply (startedVoices_allStarted midiNote), Hstarted.
      * handles_frame H. intros k v. rewrite lookup_delete_Some. intros [_ Hv]. assumption.
      * handles_frame H. intros k v. rewrite lookup_delete_Some. intros [_ Hv]. assumption.
    + handles_frame H. intros k v. rewrite lookup_delete_Some. intros [_ Hv]. assumption.
  - unfold setVolume. simpl. destruct (instrumentRef s) as [[i | p] |]; handles_frame H.
  - destruct (pending token s); [| assumption].
    apply handles_ok_resume. unfold forget. handles_frame H.
Qed.

Lemma handles_ok_run (es : list Event) (s : State) : handles_ok s -> handles_ok (run s es).
Proof.
  revert s. induction es as [| e es IH]; intros s H; [assumption |].
  apply IH, handles_ok_step, H.
Qed.

(** X16: in every state the hook reaches, a stop handle kept under a
    note is that of a voice which was started for this note and still
    sounds; no two notes share a handle; a stop function is called for
    voices the hook started only, and never twice. *)
Theorem stop_handles_are_live (es : list Event) :
  let s := run init es in
  (forall k v, activeNotesRef s !! k = Some (Some v) -> v ∈ liveVoices k (calls s)) /\
  (forall k k' v, activeNotesRef s !! k = Some (Some v) ->
                  activeNotesRef s !! k' = Some (Some v) -> k = k') /\
  NoDup (stoppedVoices (calls s)) /\
  (forall v, v ∈ stoppedVoices (calls s) -> v ∈ allStarted (calls s)).
Proof.
  destruct (handles_ok_run es init handles_ok_init) as (H1 & H2 & _ & _ & H5 & H6).
  simpl. split; [| split; [| split]]; try assumption.
  intros k v Hk. apply liveVoices_elem. apply (H1 k v Hk).
Qed.

Lemma stop_handles_are_live_witness :
  4%nat ∈ liveVoices 60
    (calls (run init [Enable; Settle 0 Fulfilled; Settle 2 Fulfilled;
                      PlayNote 60 100 true; PlayNote 60 100 true])).
Proof.
  apply (proj1 (stop_handles_are_live
                  [Enable; Settle 0 Fulfilled; Settle 2 Fulfilled;
                   PlayNote 60 100 true; PlayNote 60 100 true]) 60 4%nat).
  reflexivity.
Defined.

End VoiceFacts.

(** ** Enabling, playing and stopping *)

Section PlayingFacts.
Import Instruments Audio.

Arguments getInstrument : simpl never.
Arguments newSampler : simpl never.
Arguments createSynth : simpl never.
Arguments normalizedVelocity : simpl never.
Arguments midiVelocity : simpl never.
Arguments volumeToDb : simpl never.

Lemma pending_in_tasks (token : nat) (s : State) (t : Task) :
  pending token s = Some t -> (token, t) ∈ tasks s.
Proof.
  unfold pending. destruct (List.find _ (tasks s)) as [[k t'] |] eqn:Hfind; [| discriminate].
  intros [= <-]. apply find_some in Hfind as [Hin Heq]. simpl in Heq.
  apply Nat.eqb_eq in Heq. subst k. apply list_elem_of_In, Hin.
Qed.

Lemma forget_tasks_subset (token : nat) (s : State) (p : nat * Task) :
  p ∈ tasks (forget token s) -> p ∈ tasks s.
Proof.
  unfold forget. simpl. rewrite !list_elem_of_In, filter_In. intros [H _]. exact H.
Qed.

Lemma enabled_ok_init : enabled_ok init.
Proof.
  unfold enabled_ok, init. simpl. split; [discriminate |]. split; [congruence |].
  intros token t H. apply elem_of_nil in H. contradiction.
Qed.

Lemma enabled_ok_frame (s s' : State) :
  enabled_ok s ->
  isEnabled s' = isEnabled s ->
  (instrumentRef s <> None <-> instrumentRef s' <> None) ->
  audioContextRef s' = audioContextRef s ->
  (forall token t, (token, t) ∈ tasks s' -> (token, t) ∈ tasks s \/ t = EnableStarting) ->
  enabled_ok s'.
Proof.
  intros (H1 & H2 & H3) He Hi Hc Ht. unfold enabled_ok. rewrite He, Hc.
  split; [| split].
  - intros H. apply Hi, H1, H.
  - intros H. apply H2, Hi, H.
  - intros token t Hin Hne. destruct (Ht token t Hin) as [Hold | ->]; [| congruence].
    apply (H3 token t Hold Hne).
Qed.

Lemma enabled_ok_context (s' : State) :
  audioContextRef s' <> None ->
  (isEnabled s' = true -> instrumentRef s' <> None) ->
  enabled_ok s'.
Proof. intros Hc He. unfold enabled_ok. auto. Qed.

Ltac enabled_frame H :=
  apply (enabled_ok_frame _ _ H); simpl;
  [ reflexivity
  | first [ reflexivity | split; intros _; discriminate ]
  | reflexivity
  | first [ (intros ? ? Hin; left; exact Hin)
          | (intros ? ? Hin; apply elem_of_app in Hin as [Hin | Hin]; [left; exact Hin |];
             apply list_elem_of_singleton in Hin; injection Hin as _ ->; right; reflexivity)
          | (intros ? ? Hin; left; apply (forget_tasks_subset _ _ _ Hin)) ] ].

Lemma enabled_ok_step (s : State) (e : Event) : enabled_ok s -> enabled_ok (step s e).
Proof.
  intros H.
  destruct e as [| instrumentId | midiNote velocity r | midiNote | v | token o]; simpl.
  - unfold enable. destruct (isEnabled s) eqn:He; [assumption |]. enabled_frame H.
  - unfold setInstrument, releaseAllIfPresent. simpl.
    destruct (audioContextRef s) as [context |] eqn:Hctx; [| assumption].
    destruct H as (H1 & _ & _).
    destruct (type (getInstrument instrumentId)), (instrumentRef s) as [[i | p] |] eqn:Hi;
      apply enabled_ok_context; simpl; rewrite ?Hctx, ?Hi;
      first [discriminate | assumption | (intros _; discriminate)].
  - unfold playNote. destruct (instrumentRef s) as [[i | p] |] eqn:Hi; [| | assumption];
      apply (enabled_ok_frame _ _ H); simpl; rewrite ?Hi; auto; reflexivity.
  - unfold stopNote. destruct (instrumentRef s) as [[i | p] |] eqn:Hi; [| | assumption];
      [destruct (activeNotesRef s !! midiNote) as [[stopFn |] |] |];
      apply (enabled_ok_frame _ _ H); simpl; rewrite ?Hi; auto; reflexivity.
  - unfold setVolume. simpl. destruct (instrumentRef s) as [[i | p] |] eqn:Hi;
      apply (enabled_ok_frame _ _ H); simpl; rewrite ?Hi; auto; try reflexivity.
    split; intros _; discriminate.
  - destruct (pending token s) as [t |] eqn:Hp; [| assumption].
    apply pending_in_tasks in Hp.
    assert (Hforget : enabled_ok (forget token s)) by (unfold forget; enabled_frame H).
    assert (Hctx : t <> EnableStarting -> audioContextRef (forget token s) <> None).
    { destruct H as (_ & _ & H3). intros Hne. apply (H3 token t Hp Hne). }
    destruct t as [| i | instrumentId i], o as [| message]; simpl;
      unfold enableStarted, enableFailed, enableLoaded, enableFallback,
             switchLoaded, switchFailed.
    + apply enabled_ok_context; simpl; [discriminate |].
      destruct Hforget as (H1 & _). exact H1.
    + enabled_frame Hforget.
    + apply enabled_ok_context; simpl; [apply Hctx; discriminate | discriminate].
    + apply enabled_ok_context; simpl; [apply Hctx; discriminate | discriminate].
    + apply enabled_ok_context; simpl; [apply Hctx; discriminate | discriminate].
    + enabled_frame Hforget.
Qed.

Lemma enabled_ok_run (es : list Event) (s : State) : enabled_ok s -> enabled_ok (run s es).
Proof.
  revert s. induction es as [| e es IH]; intros s H; [assumption |].
  apply IH, enabled_ok_step, H.
Qed.

(** X17: in every state the hook reaches, if audio is enabled then an
    instrument is installed and the audio context exists, so that every
    [playNote] reaches a backend: none is dropped for lack of an
    instrument. *)
Theorem enabled_means_playable (es : list Event) :
  let s := run init es in
  isEnabled s = true ->
  instrumentRef s <> None /\
  audioContextRef s <> None /\
  forall midiNote velocity returnsStop,
    length (calls (playNote midiNote velocity returnsStop s)) = S (length (calls s)).
Proof.
  intros s He. destruct (enabled_ok_run es init enabled_ok_init) as (H1 & H2 & _).
  fold s in H1, H2. specialize (H1 He). specialize (H2 H1).
  split; [assumption |]. split; [assumption |].
  intros midiNote velocity returnsStop. unfold playNote.
  destruct (instrumentRef s) as [[i | p] |]; [| | contradiction];
    simpl; rewrite length_app; simpl; lia.
Qed.

Lemma enabled_means_playable_witness :
  let s := run init [Enable; Settle 0 Fulfilled; Settle 2 (Rejected None)] in
  instrumentRef s <> None /\ length (calls (playNote 60 100 true s)) = 1%nat.
Proof.
  destruct (enabled_means_playable [Enable; Settle 0 Fulfilled; Settle 2 (Rejected None)]
              eq_refl) as (Hi & _ & Hplay).
  split; [exact Hi | exact (Hplay 60 100%Q true)].
Defined.

(** X18: on a sampler, for a note that has no entry in the handle table,
    [playNote] followed by [stopNote] gives back the handle table as it
    was. When [start] returned a stop function, the voice started is the
    one stopped, and the voices that sound are as they were. When [start]
    returned none, [stopNote] calls no backend: the voice started is not
    stopped and sounds on, the voices of the other notes being as they
    were. *)
Theorem playNote_stopNote_round_trip
        (s : State) (i : Sampler) (midiNote : Z) (velocity : Q) (returnsStop : bool) :
  handles_ok s ->
  instrumentRef s = Some (Sampled i) ->
  activeNotesRef s !! midiNote = None ->
  let s' := stopNote midiNote (playNote midiNote velocity returnsStop s) in
  let started := Start (sampler_oid i) midiNote (midiVelocity velocity) (fresh s) in
  activeNotesRef s' = activeNotesRef s /\
  (returnsStop = true ->
   calls s' = ((calls s ++ [started]) ++ [StopVoice (fresh s)])%list /\
   forall note, liveVoices note (calls s') = liveVoices note (calls s)) /\
  (returnsStop = false ->
   calls s' = (calls s ++ [started])%list /\
   liveVoices midiNote (calls s') = (liveVoices midiNote (calls s) ++ [fresh s])%list /\
   forall note, note <> midiNote ->
                liveVoices note (calls s') = liveVoices note (calls s)).
Proof.
  intros (_ & _ & H3 & _ & _ & H6) Hi Hn s' started.
  destruct (playNote_sampled s i midiNote velocity returnsStop Hi) as (Hi1 & _ & Ht1 & Hc1).
  set (s1 := playNote midiNote velocity returnsStop s) in *.
  assert (Hlook : activeNotesRef s1 !! midiNote =
                  Some (if returnsStop then Some (fresh s) else None))
    by (rewrite Ht1; apply lookup_insert_eq).
  assert (Hunstopped : fresh s ∉ stoppedVoices (calls s)).
  { intros Hin. assert (fresh s < fresh s)%nat; [apply H3, H6, Hin | lia]. }
  split; [| split].
  - subst s'. unfold stopNote. rewrite Hi1, Hlook.
    destruct returnsStop; simpl; rewrite Ht1; apply delete_insert_id, Hn.
  - intros ->.
    assert (Hcalls : calls s' = ((calls s ++ [started]) ++ [StopVoice (fresh s)])%list).
    { subst s'. unfold stopNote. rewrite Hi1, Hlook. simpl. rewrite Hc1. reflexivity. }
    split; [exact Hcalls |].
    intros note. unfold liveVoices. rewrite Hcalls. subst started.
    rewrite startedVoices_snoc, app_nil_r, startedVoices_snoc.
    rewrite stoppedVoices_snoc, stoppedVoices_snoc, app_nil_r.
    rewrite List.filter_app.
    replace (List.filter _ (if (midiNote =? note)%Z then [fresh s] else [])) with (@nil nat).
    + rewrite app_nil_r. apply List.filter_ext_in. intros v Hv. f_equal.
      apply bool_decide_ext. rewrite elem_of_app, list_elem_of_singleton.
      split; [intros [H | ->]; [assumption |] | auto].
      exfalso. assert (fresh s < fresh s)%nat; [| lia].
      apply H3, (startedVoices_allStarted note), list_elem_of_In, Hv.
    + destruct (midiNote =? note)%Z; [| reflexivity]. simpl.
      rewrite bool_decide_eq_true_2; [reflexivity |].
      apply elem_of_app. right. left.
  - intros ->.
    assert (Hcalls : calls s' = (calls s ++ [started])%list).
    { subst s'. unfold stopNote. rewrite Hi1, Hlook. simpl. rewrite Hc1. reflexivity. }
    split; [exact Hcalls |].
    unfold liveVoices. rewrite Hcalls. subst started.
    split.
    + rewrite startedVoices_snoc, stoppedVoices_snoc, app_nil_r, Z.eqb_refl.
      rewrite List.filter_app. f_equal. simpl.
      rewrite bool_decide_eq_false_2 by exact Hunstopped. reflexivity.
    + intros note Hnote.
      rewrite startedVoices_snoc, stoppedVoices_snoc, app_nil_r.
      destruct (Z.eqb_spec midiNote note) as [Heq | _]; [congruence |].
      rewrite app_nil_r. reflexivity.
Qed.

Lemma playNote_stopNote_round_trip_witness :
  let s := run init [Enable; Settle 0 Fulfilled; Settle 2 Fulfilled; PlayNote 60 100 true] in
  liveVoices 64 (calls (stopNote 64 (playNote 64 100 true s))) = liveVoices 64 (calls s) /\
  liveVoices 64 (calls (stopNote 64 (playNote 64 100 false s))) =
    (liveVoices 64 (calls s) ++ [fresh s])%list /\
  activeNotesRef (stopNote 64 (playNote 64 100 false s)) = activeNotesRef s.
Proof.
  destruct (playNote_stopNote_round_trip
              (run init [Enable; Settle 0 Fulfilled; Settle 2 Fulfilled; PlayNote 60 100 true])
              (newSampler "grand-piano" 2) 64 100 true
              (handles_ok_run _ _ handles_ok_init) eq_refl eq_refl) as (_ & Hstop & _).
  destruct (playNote_stopNote_round_trip
              (run init [Enable; Settle 0 Fulfilled; Settle 2 Fulfilled; PlayNote 60 100 true])
              (newSampler "grand-piano" 2) 64 100 false
              (handles_ok_run _ _ handles_ok_init) eq_refl eq_refl) as (Ht & _ & Hnone).
  split; [exact (proj2 (Hstop eq_refl) 64) |].
  split; [exact (proj1 (proj2 (Hnone eq_refl))) | exact Ht].
Defined.

(** X19: [stopNote] with nothing to stop: without an instrument it
    changes nothing; on a sampler, for a note without a stop function in
    the table (no entry, or an entry holding none), it calls no backend
    and only removes the entry; on a synthesizer it always sends
    [triggerRelease], whether the note was played or not. *)
Theorem stopNote_without_handle (s : State) (midiNote : Z) :
  (instrumentRef s = None -> stopNote midiNote s = s) /\
  (forall i, instrumentRef s = Some (Sampled i) ->
     activeNotesRef s !! midiNote = None \/ activeNotesRef s !! midiNote = Some None ->
     calls (stopNote midiNote s) = calls s /\
     activeNotesRef (stopNote midiNote s) = delete midiNote (activeNotesRef s)) /\
  (forall p, instrumentRef s = Some (Synth p) ->
     calls (stopNote midiNote s) = (calls s ++ [TriggerRelease (synth_oid p) midiNote])%list /\
     activeNotesRef (stopNote midiNote s) = delete midiNote (activeNotesRef s)).
Proof.
  split; [| split].
  - intros Hi. unfold stopNote. rewrite Hi. reflexivity.
  - intros i Hi [Hn | Hn]; unfold stopNote; rewrite Hi, Hn; split; reflexivity.
  - intros p Hi. unfold stopNote. rewrite Hi. split; reflexivity.
Qed.

Lemma stopNote_without_handle_witness :
  stopNote 60 init = init /\
  calls (stopNote 60 (run init [Enable; Settle 0 Fulfilled; Settle 2 Fulfilled])) = [].
Proof.
  split.
  - apply (proj1 (stopNote_without_handle init 60)). reflexivity.
  - apply (proj1 (proj2 (stopNote_without_handle
                           (run init [Enable; Settle 0 Fulfilled; Settle 2 Fulfilled]) 60))
             (newSampler "grand-piano" 2) eq_refl).
    left. reflexivity.
Defined.

(** X20: a voice started on a sampler and still held when the instrument
    is switched to a synthesizer is never stopped: the note-off sends
    [triggerRelease] to the synthesizer and drops the stop handle without
    calling it, so that the voice still sounds and can no longer be
    stopped through the table. *)
Theorem hot_swap_to_synth_strands_voice
        (s : State) (i : Sampler) (midiNote : Z) (velocity : Q)
        (instrumentId : string) (context : nat) :
  wf s ->
  instrumentRef s = Some (Sampled i) ->
  audioContextRef s = Some context ->
  type (getInstrument instrumentId) = synth ->
  let voice := fresh s in
  let s3 := run s [PlayNote midiNote velocity true; SetInstrument instrumentId;
                   StopNote midiNote] in
  calls s3 = (calls s ++ [Start (sampler_oid i) midiNote (midiVelocity velocity) voice;
                          TriggerRelease (S voice) midiNote])%list /\
  voice ∈ liveVoices midiNote (calls s3) /\
  activeNotesRef s3 !! midiNote = None /\
  (voice ∉ releasable s3).
Proof.
  intros (_ & _ & Hstopped & Hhandles) Hi Hctx Htype voice s3.
  destruct (playNote_sampled s i midiNote velocity true Hi) as (Hi1 & Hf1 & Ht1 & Hc1).
  assert (Hs3 : s3 = stopNote midiNote
                       (setInstrument instrumentId (playNote midiNote velocity true s)))
    by reflexivity.
  set (s1 := playNote midiNote velocity true s) in *.
  assert (Hctx1 : audioContextRef s1 = Some context).
  { subst s1. unfold playNote. rewrite Hi. simpl. assumption. }
  assert (Hs2 : setInstrument instrumentId s1 =
                setIsLoading false
                  (setCurrentInstrumentId instrumentId
                     (setInstrumentRef (Some (Synth (createSynth instrumentId (fresh s1))))
                        (bump (setIsLoading true s1))))).
  { unfold setInstrument, releaseAllIfPresent. rewrite Hctx1, Htype. simpl.
    rewrite Hi1. reflexivity. }
  assert (Hcalls : calls s3 =
            (calls s ++ [Start (sampler_oid i) midiNote (midiVelocity velocity) voice;
                         TriggerRelease (S voice) midiNote])%list).
  { rewrite Hs3, Hs2. unfold stopNote. simpl. rewrite Hc1, Hf1, <- app_assoc. reflexivity. }
  assert (Htable : activeNotesRef s3 =
                   delete midiNote (<[midiNote := Some voice]> (activeNotesRef s))).
  { rewrite Hs3, Hs2. unfold stopNote. simpl. rewrite Ht1. reflexivity. }
  split; [exact Hcalls |]. split; [| split].
  - apply liveVoices_elem. rewrite Hcalls. split.
    + unfold startedVoices. rewrite omap_app. simpl. rewrite Z.eqb_refl.
      apply elem_of_app. right. left.
    + unfold stoppedVoices. rewrite omap_app. simpl. rewrite app_nil_r.
      intros Hin. apply Hstopped in Hin. subst voice. lia.
  - rewrite Htable. apply lookup_delete_eq.
  - rewrite releasable_elem. intros [k Hk]. rewrite Htable in Hk.
    apply lookup_delete_Some in Hk as [Hne Hk].
    rewrite lookup_insert_ne in Hk by assumption.
    apply Hhandles in Hk. subst voice. lia.
Qed.

Lemma hot_swap_to_synth_strands_voice_witness :
  let s := run init [Enable; Settle 0 Fulfilled; Settle 2 Fulfilled] in
  let s3 := run s [PlayNote 60 100 true; SetInstrument "organ"; StopNote 60] in
  fresh s ∈ liveVoices 60 (calls s3) /\ activeNotesRef s3 !! 60 = None.
Proof.
  destruct (hot_swap_to_synth_strands_voice
              (run init [Enable; Settle 0 Fulfilled; Settle 2 Fulfilled])
              (newSampler "grand-piano" 2) 60 100 "organ" 1%nat
              (wf_run _ _ wf_init) eq_refl eq_refl eq_refl) as (_ & Hlive & Hnone & _).
  split; [exact Hlive | exact Hnone].
Defined.

End PlayingFacts.

(** ** Volume and velocity *)

Section VolumeFacts.
Import Instruments Audio.

Arguments getInstrument : simpl never.
Arguments newSampler : simpl never.
Arguments createSynth : simpl never.
Arguments normalizedVelocity : simpl never.
Arguments midiVelocity : simpl never.
Arguments volumeToDb : simpl never.

(** X21: on a sampler [setVolume] only records the volume: it calls no
    backend and leaves the instrument as it is, and the calls made by a
    later [playNote] are those made without it: the volume is not
    applied to the notes of a sampled instrument. *)
Theorem setVolume_sampled_is_not_applied (s : State) (i : Sampler) (newVolume : Q) :
  instrumentRef s = Some (Sampled i) ->
  setVolume newVolume s = setVolumeState newVolume s /\
  volume (setVolume newVolume s) = newVolume /\
  instrumentRef (setVolume newVolume s) = instrumentRef s /\
  calls (setVolume newVolume s) = calls s /\
  forall midiNote velocity returnsStop,
    calls (playNote midiNote velocity returnsStop (setVolume newVolume s)) =
    calls (playNote midiNote velocity returnsStop s).
Proof.
  intros Hi. unfold setVolume. simpl. rewrite Hi. simpl.
  repeat split; try assumption.
  intros midiNote velocity returnsStop. unfold playNote. simpl. rewrite Hi. reflexivity.
Qed.

Lemma setVolume_sampled_is_not_applied_witness :
  let s := run init [Enable; Settle 0 Fulfilled; Settle 2 Fulfilled] in
  calls (playNote 60 100 true (setVolume 5 s)) = calls (playNote 60 100 true s).
Proof.
  destruct (setVolume_sampled_is_not_applied
              (run init [Enable; Settle 0 Fulfilled; Settle 2 Fulfilled])
              (newSampler "grand-piano" 2) 5 eq_refl) as (_ & _ & _ & _ & H).
  exact (H 60 100%Q true).
Defined.



(** X23: switching to a synthesizer builds it at -6 dB and leaves the
    volume state as it is: the volume chosen before with [setVolume] is
    not applied to the new backend. *)
Theorem setInstrument_synth_ignores_volume
        (s : State) (instrumentId : string) (context : nat) (newVolume : Q) :
  audioContextRef s = Some context ->
  type (getInstrument instrumentId) = synth ->
  let s' := setInstrument instrumentId (setVolume newVolume s) in
  volume s' = newVolume /\
  exists p, instrumentRef s' = Some (Synth p) /\ synth_volume p = Finite (-6).
Proof.
  intros Hctx Htype s'. subst s'.
  assert (Hctx' : audioContextRef (setVolume newVolume s) = Some context).
  { unfold setVolume. simpl. destruct (instrumentRef s) as [[i | p] |]; assumption. }
  unfold setInstrument. rewrite Hctx', Htype. simpl.
  split.
  - unfold releaseAllIfPresent, setVolume. simpl.
    destruct (instrumentRef s) as [[i | p] |] eqn:Hi; simpl; rewrite ?Hi; reflexivity.
  - eexists. split; reflexivity.
Qed.

Lemma setInstrument_synth_ignores_volume_witness :
  let s := run init [Enable; Settle 0 Fulfilled; Settle 2 Fulfilled] in
  volume (setInstrument "organ" (setVolume 20 s)) = 20%Q.
Proof.
  exact (proj1 (setInstrument_synth_ignores_volume
                  (run init [Enable; Settle 0 Fulfilled; Settle 2 Fulfilled])
                  "organ" 1%nat 20 eq_refl eq_refl)).
Defined.

(** X24: whatever the velocity, the velocity sent to a sampler lies
    between 10 and 127, and the gain sent to a synthesizer is 0.1 at
    least; the gain is at most 1 for velocities up to 127 and above 1
    beyond: it has a floor and no ceiling. *)
Theorem velocity_bounds (velocity : Q) :
  10 <= midiVelocity velocity <= 127 /\
  (1 # 10 <= normalizedVelocity velocity)%Q /\
  ((velocity <= 127)%Q -> (normalizedVelocity velocity <= 1)%Q) /\
  ((127 < velocity)%Q -> (1 < normalizedVelocity velocity)%Q).
Proof.
  unfold midiVelocity, normalizedVelocity. split; [lia |].
  split; [apply Q.le_max_l |]. split.
  - intros H. apply Q.max_lub; [discriminate |].
    destruct velocity as [n d]. unfold Qle, Qdiv, Qmult, Qinv in *. simpl in *. lia.
  - intros H. eapply Qlt_le_trans; [| apply Q.le_max_r].
    destruct velocity as [n d]. unfold Qlt, Qdiv, Qmult, Qinv in *. simpl in *. lia.
Qed.

Lemma velocity_bounds_witness : (1 < normalizedVelocity 254)%Q.
Proof. apply (proj2 (proj2 (proj2 (velocity_bounds 254)))). reflexivity. Defined.

(** X25: a note-on whose attack is k/127, for a key velocity k, reaches
    a sampler with the velocity k clamped to 10..127: multiplying the
    attack by 127 and rounding gives the key velocity back. *)
Theorem noteOn_restores_key_velocity
        (a : App.State) (i : Sampler) (number k : Z) (attack : Q) (returnsStop : bool) :
  (attack == inject_Z k / 127)%Q ->
  instrumentRef (App.audio a) = Some (Sampled i) ->
  midiVelocity (Midi.forwardedVelocity attack) = Z.max 10 (Z.min 127 k) /\
  calls (App.audio (App.noteOn number attack returnsStop a)) =
    (calls (App.audio a) ++
     [Start (sampler_oid i) number (Z.max 10 (Z.min 127 k)) (fresh (App.audio a))])%list.
Proof.
  intros Hattack Hi.
  assert (Hv : midiVelocity (Midi.forwardedVelocity attack) = Z.max 10 (Z.min 127 k)).
  { rewrite <- midiVelocity_integer. unfold midiVelocity, round, Midi.forwardedVelocity.
    do 2 f_equal. apply Qfloor_comp. rewrite Hattack. field. }
  split; [exact Hv |].
  simpl. unfold playNote. rewrite Hi. simpl. rewrite Hv. reflexivity.
Qed.

Lemma noteOn_restores_key_velocity_witness :
  midiVelocity (Midi.forwardedVelocity (64 # 127)) = 64.
Proof.
  apply (noteOn_restores_key_velocity
           {| App.activeNotes := [];
              App.audio := run init [Enable; Settle 0 Fulfilled; Settle 2 Fulfilled] |}
           (newSampler "grand-piano" 2) 60 64 (64 # 127) true).
  - reflexivity.
  - reflexivity.
Defined.

End VolumeFacts.

(** ** Loads that fail, overlap, or follow the fallback *)

Section LoadingFacts.
Import Instruments Audio.

Arguments getInstrument : simpl never.
Arguments newSampler : simpl never.
Arguments createSynth : simpl never.

Lemma setInstrument_sampled_rest (s : State) (instrumentId : string) (context : nat) :
  audioContextRef s = Some context ->
  type (getInstrument instrumentId) = sampled ->
  error (setInstrument instrumentId s) = error s /\
  isEnabled (setInstrument instrumentId s) = isEnabled s /\
  volume (setInstrument instrumentId s) = volume s.
Proof.
  intros Hctx Htype. unfold setInstrument, releaseAllIfPresent. rewrite Hctx, Htype. simpl.
  destruct (instrumentRef s) as [[i | p] |]; repeat split.
Qed.

(** X26: when the load of a sampled instrument fails, the switch is
    given up silently: the backend installed before and the current
    instrument id stay, the error state is not touched, the handle table
    is kept and nothing is left loading. *)
Theorem setInstrument_failed_load
        (s : State) (instrumentId : string) (context : nat) (message : option string) :
  wf s ->
  audioContextRef s = Some context ->
  type (getInstrument instrumentId) = sampled ->
  let s' := run s [SetInstrument instrumentId; Settle (fresh s) (Rejected message)] in
  instrumentRef s' = instrumentRef s /\
  currentInstrumentId s' = currentInstrumentId s /\
  error s' = error s /\
  activeNotesRef s' = activeNotesRef s /\
  isLoading s' = false /\
  tasks s' = tasks s.
Proof.
  intros Hwf Hctx Htype s'. subst s'.
  destruct (setInstrument_sampled s instrumentId context Hctx Htype)
    as (Ht & _ & _ & Hi & _ & Hid & Ha & _).
  destruct (setInstrument_sampled_rest s instrumentId context Hctx Htype) as (He & _).
  destruct (wf_setInstrument_sampled s instrumentId context Hwf Hctx Htype) as [Hn _].
  rewrite !run_cons, run_nil.
  change (step s (SetInstrument instrumentId)) with (setInstrument instrumentId s).
  erewrite (settle_suspended _ (tasks s) [] (fresh s));
    [| rewrite Ht; reflexivity | assumption | apply not_elem_of_nil].
  simpl. rewrite app_nil_r. auto 10.
Qed.

Lemma setInstrument_failed_load_witness :
  let s := run init [Enable; Settle 0 Fulfilled; Settle 2 Fulfilled] in
  let s' := run s [SetInstrument "strings"; Settle (fresh s) (Rejected None)] in
  instrumentRef s' = instrumentRef s /\ error s' = None.
Proof.
  destruct (setInstrument_failed_load
              (run init [Enable; Settle 0 Fulfilled; Settle 2 Fulfilled])
              "strings" 1%nat None (wf_run _ _ wf_init) eq_refl eq_refl)
    as (Hi & _ & He & _).
  split; [exact Hi | exact He].
Defined.

(** X27: when the audio start is refused during [enable()], the hook
    stays disabled and is no longer loading, the error is the message of
    the rejection, or [Failed to enable audio] without one, and neither a
    context nor an instrument is set; a new [enable()] clears the error
    and loads again. *)
Theorem enable_start_rejected (s : State) (message : option string) :
  wf s ->
  isEnabled s = false ->
  let s' := run s [Enable; Settle (fresh s) (Rejected message)] in
  isEnabled s' = false /\
  isLoading s' = false /\
  error s' = Some (default "Failed to enable audio" message) /\
  audioContextRef s' = audioContextRef s /\
  instrumentRef s' = instrumentRef s /\
  tasks s' = tasks s /\
  error (enable s') = None /\ isLoading (enable s') = true.
Proof.
  intros Hwf Hoff s'.
  assert (Hs' : s' = enableFailed message
                       (setTasks (tasks s ++ [])
                          (suspend (fresh s) EnableStarting
                             (bump (setError None (setIsLoading true s)))))).
  { subst s'. rewrite !run_cons, run_nil.
    change (step s Enable) with (enable s). unfold enable. rewrite Hoff.
    erewrite (settle_suspended _ (tasks s) [] (fresh s) EnableStarting);
      [| reflexivity | apply fresh_token_unused; [assumption | lia]
       | apply not_elem_of_nil].
    reflexivity. }
  rewrite Hs'. unfold enable. simpl. rewrite app_nil_r, Hoff. simpl.
  repeat split; reflexivity.
Qed.

Lemma enable_start_rejected_witness :
  error (run init [Enable; Settle 0 (Rejected None)]) = Some "Failed to enable audio".
Proof.
  destruct (enable_start_rejected init None wf_init eq_refl) as (_ & _ & He & _).
  exact He.
Defined.

(** X28: [isLoading] does not count the loads: when two sampled
    instruments are loading, the first load to end, whichever it is and
    however it ends, sets [isLoading] to false while the other is still
    awaited. *)
Theorem isLoading_cleared_by_first_load
        (s : State) (A B : string) (context : nat) (o : Outcome) :
  wf s ->
  audioContextRef s = Some context ->
  type (getInstrument A) = sampled ->
  type (getInstrument B) = sampled ->
  let loadA := fresh s in
  let loadB := S (fresh s) in
  let s2 := run s [SetInstrument A; SetInstrument B] in
  isLoading s2 = true /\
  (isLoading (step s2 (Settle loadA o)) = false /\
   pending loadB (step s2 (Settle loadA o)) =
     Some (SwitchLoading B (newSampler B loadB))) /\
  (isLoading (step s2 (Settle loadB o)) = false /\
   pending loadA (step s2 (Settle loadB o)) =
     Some (SwitchLoading A (newSampler A loadA))).
Proof.
  intros Hwf Hctx HA HB loadA loadB s2.
  destruct (setInstrument_sampled s A context Hctx HA) as (Ht1 & Hf1 & _ & _ & Hc1 & _).
  destruct (wf_setInstrument_sampled s A context Hwf Hctx HA) as [HnA _].
  set (s1 := setInstrument A s) in *.
  assert (Hctx1 : audioContextRef s1 = Some context) by congruence.
  destruct (setInstrument_sampled s1 B context Hctx1 HB) as (Ht2 & _ & Hl2 & _).
  assert (HnB : loadB ∉ map fst (tasks s))
    by (apply fresh_token_unused; [assumption | subst loadB; lia]).
  assert (Hs2 : s2 = setInstrument B s1) by reflexivity.
  rewrite Ht1, Hf1, <- Hs2 in Ht2. rewrite <- Hs2 in Hl2. fold loadA loadB in Ht2, HnA.
  assert (Hne : loadA <> loadB) by (subst loadA loadB; lia).
  split; [exact Hl2 |]. split.
  - erewrite (settle_suspended s2 (tasks s) [_] loadA);
      [| rewrite Ht2, <- app_assoc; reflexivity | assumption
       | simpl; rewrite list_elem_of_singleton; assumption].
    split; [destruct o; reflexivity |].
    unfold pending.
    replace (tasks (resume _ o _))
      with (tasks s ++ [(loadB, SwitchLoading B (newSampler B loadB))])%list
      by (destruct o; reflexivity).
    rewrite find_token_skip by assumption. simpl. rewrite Nat.eqb_refl. reflexivity.
  - erewrite (settle_suspended s2 (tasks s ++ [_]) [] loadB);
      [| rewrite Ht2; reflexivity
       | rewrite map_app, elem_of_app; simpl; rewrite list_elem_of_singleton; intros [? | ?];
         [contradiction | congruence]
       | apply not_elem_of_nil].
    split; [destruct o; reflexivity |].
    unfold pending.
    replace (tasks (resume _ o _))
      with (tasks s ++ [(loadA, SwitchLoading A (newSampler A loadA))])%list
      by (destruct o; simpl; rewrite app_nil_r; reflexivity).
    rewrite find_token_skip by assumption. simpl. rewrite Nat.eqb_refl. reflexivity.
Qed.

Lemma isLoading_cleared_by_first_load_witness :
  let s := run init [Enable; Settle 0 Fulfilled; Settle 2 Fulfilled] in
  let s2 := run s [SetInstrument "electric-piano"; SetInstrument "strings"] in
  isLoading (step s2 (Settle 3 Fulfilled)) = false /\
  pending 4 (step s2 (Settle 3 Fulfilled)) =
    Some (SwitchLoading "strings" (newSampler "strings" 4)).
Proof.
  destruct (isLoading_cleared_by_first_load
              (run init [Enable; Settle 0 Fulfilled; Settle 2 Fulfilled])
              "electric-piano" "strings" 1%nat Fulfilled
              (wf_run _ _ wf_init) eq_refl eq_refl eq_refl) as (_ & H & _).
  exact H.
Defined.

(** The state after the fallback of [enable()]. *)
Lemma enable_fallback_state (s : State) (message : option string) :
  wf s ->
  isEnabled s = false ->
  let s' := run s [Enable; Settle (fresh s) Fulfilled;
                   Settle (S (S (fresh s))) (Rejected message)] in
  isEnabled s' = true /\
  currentInstrumentId s' = "organ" /\
  audioContextRef s' = Some (S (fresh s)) /\
  instrumentRef s' = Some (Synth (createSynth "organ" (S (S (S (fresh s)))))) /\
  fresh s' = S (S (S (S (fresh s)))) /\
  tasks s' = tasks s /\
  calls s' = calls s.
Proof.
  intros Hwf Hoff s'. subst s'. rewrite !run_cons, run_nil.
  assert (Hnew : forall k, (fresh s <= k)%nat -> k ∉ map fst (tasks s))
    by (intros k Hk; apply fresh_token_unused; assumption).
  change (step s Enable) with (enable s). unfold enable. rewrite Hoff.
  erewrite (settle_suspended _ (tasks s) [] (fresh s) EnableStarting);
    [| reflexivity | apply Hnew; lia | apply not_elem_of_nil].
  simpl resume. unfold enableStarted.
  erewrite (settle_suspended _ (tasks s) [] (S (S (fresh s))));
    [| simpl; rewrite app_nil_r; reflexivity | apply Hnew; lia | apply not_elem_of_nil].
  simpl. rewrite app_nil_r. repeat split.
Qed.

(** X29: after the fallback of [enable()] the current instrument is the
    organ, so that the effect that syncs the instrument with the
    settings, run with a sampled settings instrument, asks for that
    instrument again: the organ is released and stays installed while
    the instrument loads, and if this load succeeds it replaces the
    organ, after which the effect has nothing more to do. *)
Theorem syncInstrument_after_fallback
        (s : State) (settingsInstrumentId : string) (message : option string) :
  wf s ->
  isEnabled s = false ->
  settingsInstrumentId <> "organ" ->
  type (getInstrument settingsInstrumentId) = sampled ->
  let s1 := run s [Enable; Settle (fresh s) Fulfilled;
                   Settle (S (S (fresh s))) (Rejected message)] in
  let s2 := App.syncInstrument settingsInstrumentId s1 in
  let s3 := step s2 (Settle (fresh s1) Fulfilled) in
  (isLoading s2 = true /\
   instrumentRef s2 = instrumentRef s1 /\
   calls s2 = (calls s1 ++ [ReleaseAll (S (S (S (fresh s))))])%list /\
   pending (fresh s1) s2 =
     Some (SwitchLoading settingsInstrumentId
             (newSampler settingsInstrumentId (fresh s1)))) /\
  (instrumentRef s3 =
     Some (Sampled (newSampler settingsInstrumentId (fresh s1))) /\
   currentInstrumentId s3 = settingsInstrumentId /\
   App.syncInstrument settingsInstrumentId s3 = s3).
Proof.
  intros Hwf Hoff Hne Htype s1 s2 s3.
  destruct (enable_fallback_state s message Hwf Hoff)
    as (He & Hid & Hctx & Hi & Hf & Ht & Hc).
  fold s1 in He, Hid, Hctx, Hi, Hf, Ht, Hc.
  assert (Hwf1 : wf s1) by (apply wf_run, Hwf).
  assert (Hs2 : s2 = setInstrument settingsInstrumentId s1).
  { subst s2. unfold App.syncInstrument. rewrite He, Hid.
    rewrite (proj2 (String.eqb_neq _ _) Hne). reflexivity. }
  destruct (setInstrument_sampled s1 settingsInstrumentId _ Hctx Htype)
    as (Ht2 & _ & Hl2 & Hi2 & _ & _ & _ & Hc2).
  destruct (wf_setInstrument_sampled s1 settingsInstrumentId _ Hwf1 Hctx Htype) as [Hn _].
  rewrite <- Hs2 in Ht2, Hl2, Hi2, Hc2.
  split.
  - split; [exact Hl2 |]. split; [exact Hi2 |]. split.
    + rewrite Hc2. unfold releaseAllIfPresent. rewrite Hi. reflexivity.
    + unfold pending. rewrite Ht2, find_token_skip by assumption.
      simpl. rewrite Nat.eqb_refl. reflexivity.
  - assert (Hs3 : s3 = switchLoaded settingsInstrumentId
                         (newSampler settingsInstrumentId (fresh s1))
                         (setTasks (tasks s1 ++ []) s2)).
    { subst s3. erewrite (settle_suspended s2 (tasks s1) [] (fresh s1));
        [| rewrite Ht2; reflexivity | assumption | apply not_elem_of_nil].
      reflexivity. }
    rewrite Hs3. split; [reflexivity |]. split; [reflexivity |].
    unfold App.syncInstrument.
    cbn [currentInstrumentId switchLoaded setIsLoading setCurrentInstrumentId].
    rewrite String.eqb_refl, andb_false_r. reflexivity.
Qed.

Lemma syncInstrument_after_fallback_witness :
  let s1 := run init [Enable; Settle 0 Fulfilled; Settle 2 (Rejected None)] in
  let s2 := App.syncInstrument DEFAULT_INSTRUMENT_ID s1 in
  isLoading s2 = true /\
  currentInstrumentId (step s2 (Settle (fresh s1) Fulfilled)) = DEFAULT_INSTRUMENT_ID.
Proof.
  destruct (syncInstrument_after_fallback init DEFAULT_INSTRUMENT_ID None wf_init eq_refl)
    as ((Hl & _) & (_ & Hid & _)); [discriminate | reflexivity |].
  split; [exact Hl | exact Hid].
Defined.

End LoadingFacts.
